(** * A caching DNS forwarder: cache store, lock discipline and request handler

    Shallow embedding of [dns/dns_server.py].  The module keeps one global
    dictionary [cache] (key ["<type>:<name>"], value: list of records with
    their [ttl] and insertion [timestamp]), guarded by [cache_lock], a
    snapshot file [cache.json], and serves UDP datagrams by answering from
    the cache or by forwarding to a fixed upstream resolver.

    Modelling choices.
    - The dictionary is a [gmap string (list Entry)]; Python dictionaries
      compare without regard to order and so do [gmap]s.
    - [time.time()] returns a float.  Clock readings are rationals ([Q]),
      the values of the floats.  [live] and [is_live] take the difference
      [now - r['timestamp']] exactly; [is_live_by fsub64] rounds it to
      binary64 as the machine does, and the cache check is given with both
      ([check_cache], [check_cache_by]).  Rounding can make an entry expire
      earlier than the exact difference does, never later.
    - Effects are explicit: a computation maps a [World] (cache, snapshot
      file, number of clock readings so far) to a result or an exception,
      a new world and the list of events it performed.  Lock operations,
      touches of the global dictionary, socket and file operations are
      events, so that the scope of [with cache_lock:] can be read off the
      event list.
    - Each operation is run on its own from its first statement to its
      last; interleavings of threads are not modelled.  Sends to the client
      and the write of the snapshot file are taken to succeed.
    - The wire codec ([parse_dns_response], [extract_records],
      [build_dns_response]) lives in [utils], which is not part of the
      sources at hand; the three functions are section variables, [None]
      standing for a raised exception. *)

From Stdlib Require Import ZArith QArith Lqa Qround Qabs Qpower.
From Stdlib Require Import Strings.Byte Strings.Ascii.
From Stdlib Require Import Floats.PrimFloat Floats.SpecFloat Floats.FloatOps.
From stdpp Require Import base option list gmap strings pretty.

(** ** Constants of the module *)

Definition CACHE_FILE : string := "cache.json".
Definition PORT : Z := 53.
Definition UPSTREAM_DNS : string := "8.8.8.8".
Definition BUFFER_SIZE : Z := 512.

(** ** Data *)

Definition bytes := list byte.
Definition Addr : Type := string * Z.

(** A record as [extract_records] returns it: the keys the handler reads.
    The payload [data] goes through [json.dump] and [json.load] unchanged;
    it is taken to be a string. *)
Record ResourceRecord := {
  rr_name : string;
  rr_type : Z;
  rr_data : string;
  rr_ttl : Z
}.

(** A dictionary stored in the cache (lines 91-97). *)
Record Entry := {
  name : string;
  type : Z;
  data : string;
  ttl : Z;
  timestamp : Q
}.

Abbreviation Cache := (gmap string (list Entry)).

(** [f"{rtype}:{name}"] *)
Definition cache_key (rtype : Z) (nm : string) : string :=
  pretty rtype +:+ ":" +:+ nm.

(** [now - r['timestamp'] < r['ttl']] *)
Definition live (now : Q) (r : Entry) : Prop :=
  (now - timestamp r < inject_Z (ttl r))%Q.

Definition is_live (now : Q) (r : Entry) : bool :=
  negb (Qle_bool (inject_Z (ttl r)) (now - timestamp r)).

(** [[r for r in rs if now - r['timestamp'] < r['ttl']]] *)
Definition live_records (now : Q) (rs : list Entry) : list Entry :=
  List.filter (is_live now) rs.

(** The content of [cache.json] as [open] and [json.load] see it, in the
    three states in which [load_cache] returns.  The states in which it
    raises (a file that is not text, JSON that is not an object of
    arrays of records) are those of [Disk], further down. *)
Inductive File :=
| Missing
| Unparseable
| Snapshot (raw : Cache).

Inductive exn :=
| FileNotFoundError
| JSONDecodeError
| KeyError
| SocketTimeout
| SocketError
| CodecError.

Inductive result (A : Type) :=
| Ok (a : A)
| Raise (e : exn).
Arguments Ok {A} a.
Arguments Raise {A} e.

(** What the upstream socket does for one request. *)
Inductive Upstream :=
| SendFails
| TimesOut
| RecvFails
| Replies (response : bytes).

(** ** Events *)

(** The ways the code touches the global [cache]. *)
Inductive access :=
| Filter    (* cache.get(key, []) and the comprehension over it; the sweep loop *)
| Evict     (* if key in cache: del cache[key] *)
| Append    (* cache.setdefault(k, []).append(...) *)
| Install   (* cache = raw, lines 24-29 *)
| Clear     (* cache = {}, lines 33 and 36 *)
| Dump      (* json.dump(cache, f) *)
| Len.      (* len(cache) in a log line *)

Inductive LogLine :=
| InfoLoaded (n : nat)
| InfoNoCache
| WarnCorrupt
| InfoSwept (n : nat)
| CacheHit (nm : string) (rtype : Z)
| CacheMiss (nm : string) (rtype : Z)
| ErrorLine (e : exn) (packet : bytes).

Inductive Event :=
| Acquire
| Release
| Touch (a : access)
| OpenRead (path : string)
| WriteFile (path : string) (content : Cache)
| CreateSocket
| SetTimeout (seconds : Z)
| SendUpstream (payload : bytes) (dst : Addr)
| RecvUpstream (bufsize : Z)
| SendClient (payload : bytes) (dst : Addr)
| Sleep (seconds : Z)
| Log (l : LogLine).

(** ** The world and the monad of effects *)

Record World := {
  cache : Cache;
  cache_file : File;
  ticks : nat
}.

Record Run (A : Type) := {
  res : result A;
  world : World;
  events : list Event
}.
Arguments res {A} r.
Arguments world {A} r.
Arguments events {A} r.
Arguments Build_Run {A} res world events.

Definition M (A : Type) : Type := World → Run A.

Definition ret {A} (a : A) : M A :=
  λ w, {| res := Ok a; world := w; events := [] |}.

Definition raise {A} (e : exn) : M A :=
  λ w, {| res := Raise e; world := w; events := [] |}.

Definition bind {A B} (m : M A) (f : A → M B) : M B :=
  λ w, let r := m w in
       match res r with
       | Ok a =>
           let r' := f a (world r) in
           {| res := res r'; world := world r'; events := events r ++ events r' |}
       | Raise e => {| res := Raise e; world := world r; events := events r |}
       end.

#[global] Instance M_ret : MRet M := @ret.
#[global] Instance M_bind : MBind M := λ A B f m, bind m f.

(** [try: m except ...: h]; [h e = None] when no clause matches [e]. *)
Definition try_except {A} (m : M A) (h : exn → option (M A)) : M A :=
  λ w, let r := m w in
       match res r with
       | Ok _ => r
       | Raise e =>
           match h e with
           | Some k =>
               let r' := k (world r) in
               {| res := res r'; world := world r'; events := events r ++ events r' |}
           | None => r
           end
       end.

(** [with cache_lock: m]: the lock is released however [m] ends. *)
Definition with_lock {A} (m : M A) : M A :=
  λ w, let r := m w in
       {| res := res r; world := world r;
          events := Acquire :: events r ++ [Release] |}.

Definition emit (e : Event) : M unit :=
  λ w, {| res := Ok tt; world := w; events := [e] |}.

Definition lift {A} (e : exn) (o : option A) : M A :=
  match o with Some a => ret a | None => raise e end.

Definition of_result {A} (r : result A) : M A :=
  match r with Ok a => ret a | Raise e => raise e end.

Definition get_cache (a : access) : M Cache :=
  λ w, {| res := Ok (cache w); world := w; events := [Touch a] |}.

Definition put_cache (a : access) (c : Cache) : M unit :=
  λ w, {| res := Ok tt;
          world := {| cache := c; cache_file := cache_file w; ticks := ticks w |};
          events := [Touch a] |}.

Definition update_cache (a : access) (f : Cache → Cache) : M unit :=
  λ w, {| res := Ok tt;
          world := {| cache := f (cache w); cache_file := cache_file w;
                      ticks := ticks w |};
          events := [Touch a] |}.

Fixpoint for_each {A} (xs : list A) (body : A → M unit) : M unit :=
  match xs with
  | [] => ret tt
  | x :: rest => body x;; for_each rest body
  end.

(** ** The expiry filter over a whole dictionary (lines 25-28 and 50-53) *)

(** [for key in keys: d[key] = [live records of d[key]]; if not d[key]: del d[key]],
    returning the dictionary as the loop leaves it and how the loop ended. *)
Fixpoint purge_keys (now : Q) (keys : list string) (d : Cache) : Cache * result unit :=
  match keys with
  | [] => (d, Ok tt)
  | key :: rest =>
      match d !! key with
      | None => (d, Raise KeyError)
      | Some rs =>
          let valid := live_records now rs in
          let d1 := <[key := valid]> d in
          match valid with
          | [] => purge_keys now rest (delete key d1)
          | _ :: _ => purge_keys now rest d1
          end
      end
  end.

(** [list(d)] *)
Definition keys_of (d : Cache) : list string := (map_to_list d).*1.

Definition purge (now : Q) (d : Cache) : Cache * result unit :=
  purge_keys now (keys_of d) d.

(** ** The cache-check block of the handler (lines 66-74), as values *)

(** [[r for r in cache.get(key, []) if now - r['timestamp'] < r['ttl']]] *)
Definition valid_records (now : Q) (key : string) (c : Cache) : list Entry :=
  live_records now (default [] (c !! key)).

(** [if key in cache: del cache[key]] *)
Definition evict (key : string) (c : Cache) : Cache :=
  match c !! key with
  | Some _ => delete key c
  | None => c
  end.

(** ** Insertion (lines 90-97) *)

Definition new_entry (rec : ResourceRecord) (t : Q) : Entry :=
  {| name := rr_name rec; type := rr_type rec; data := rr_data rec;
     ttl := rr_ttl rec; timestamp := t |}.

(** [cache.setdefault(k, []).append(entry)] *)
Definition append_entry (k : string) (e : Entry) (c : Cache) : Cache :=
  <[k := default [] (c !! k) ++ [e]]> c.

Definition insert (rec : ResourceRecord) (t : Q) (c : Cache) : Cache :=
  append_entry (cache_key (rr_type rec) (rr_name rec)) (new_entry rec t) c.

(** The dictionary after the loop of lines 89-97 over [records], the clock
    being read once for each record, starting with its [n]-th reading. *)
Fixpoint store_all (clock : nat → Q) (n : nat) (records : list ResourceRecord)
    (c : Cache) : Cache :=
  match records with
  | [] => c
  | rec :: rest => store_all clock (S n) rest (insert rec (clock n) c)
  end.

(** The entries that loop builds for key [k], in order. *)
Fixpoint entries_for (clock : nat → Q) (n : nat) (k : string)
    (records : list ResourceRecord) : list Entry :=
  match records with
  | [] => []
  | rec :: rest =>
      (if decide (cache_key (rr_type rec) (rr_name rec) = k)
       then [new_entry rec (clock n)] else [])
      ++ entries_for clock (S n) k rest
  end.

Section Server.

(** [time.time()]: the [n]-th reading of the clock since the start. *)
Variable clock : nat → Q.

(** The codec of [utils]; [None] is a raised exception. *)
Variable parse_dns_response : bytes → option (string * Z * Z).
Variable extract_records : bytes → option (list ResourceRecord).
Variable build_dns_response :
  Z → bytes → list Entry → string → Z → option bytes.

Definition time_time : M Q :=
  λ w, {| res := Ok (clock (ticks w));
          world := {| cache := cache w; cache_file := cache_file w;
                      ticks := S (ticks w) |};
          events := [] |}.

(** [open(CACHE_FILE, 'r')] followed by [json.load]. *)
Definition read_snapshot : M Cache :=
  λ w, {| res := match cache_file w with
                 | Missing => Raise FileNotFoundError
                 | Unparseable => Raise JSONDecodeError
                 | Snapshot raw => Ok raw
                 end;
          world := w;
          events := [OpenRead CACHE_FILE] |}.

(** [open(CACHE_FILE, 'w')] followed by [json.dump(c, f)]. *)
Definition write_snapshot (c : Cache) : M unit :=
  λ w, {| res := Ok tt;
          world := {| cache := cache w; cache_file := Snapshot c;
                      ticks := ticks w |};
          events := [WriteFile CACHE_FILE c] |}.

Definition print_len (line : nat → LogLine) : M unit :=
  c ← get_cache Len;
  emit (Log (line (size c))).

(** Lines 18-36. *)
Definition load_cache : M unit :=
  try_except
    (raw ← read_snapshot;
     now ← time_time;
     with_lock
       (let '(raw', ended) := purge now raw in
        of_result ended;;
        put_cache Install raw');;
     print_len InfoLoaded)
    (λ e, match e with
          | FileNotFoundError => Some (emit (Log InfoNoCache);; put_cache Clear ∅)
          | JSONDecodeError => Some (emit (Log WarnCorrupt);; put_cache Clear ∅)
          | _ => None
          end).

(** Lines 39-42. *)
Definition save_cache : M unit :=
  with_lock
    (c ← get_cache Dump;
     write_snapshot c).

(** One turn of the [while True] loop of [cleanup_cache] (lines 47-55). *)
Definition cleanup_round : M unit :=
  emit (Sleep 60);;
  now ← time_time;
  with_lock
    (c ← get_cache Filter;
     let '(c', ended) := purge now c in
     put_cache Filter c';;
     of_result ended);;
  save_cache;;
  print_len InfoSwept.

(** [cleanup_cache] stopped after [rounds] turns of its loop. *)
Fixpoint cleanup_cache (rounds : nat) : M unit :=
  match rounds with
  | O => ret tt
  | S n => cleanup_round;; cleanup_cache n
  end.

(** Line 91-97 for one record, the clock read when the entry is built. *)
Definition store_record (rec : ResourceRecord) : M unit :=
  t ← time_time;
  update_cache Append (insert rec t).

(** [upstream.sendto(data, (UPSTREAM_DNS, 53))] *)
Definition upstream_sendto (data : bytes) (net : Upstream) : M unit :=
  emit (SendUpstream data (UPSTREAM_DNS, 53%Z));;
  match net with
  | SendFails => raise SocketError
  | _ => ret tt
  end.

(** [upstream.recvfrom(BUFFER_SIZE)] *)
Definition upstream_recvfrom (net : Upstream) : M bytes :=
  emit (RecvUpstream BUFFER_SIZE);;
  match net with
  | Replies response => ret response
  | TimesOut => raise SocketTimeout
  | _ => raise SocketError
  end.

(** Lines 65-74: the value is [true] when the block ends in [return]. *)
Definition check_cache (data : bytes) (addr : Addr)
    (query_name : string) (query_type tid : Z) (key : string) (now : Q) : M bool :=
  with_lock
    (c ← get_cache Filter;
     match valid_records now key c with
     | [] =>
         put_cache Evict (evict key c);;
         ret false
     | r :: rs =>
         emit (Log (CacheHit query_name query_type));;
         response ← lift CodecError
           (build_dns_response tid data (r :: rs) query_name query_type);
         emit (SendClient response addr);;
         ret true
     end).

(** Lines 76-97. *)
Definition forward (data : bytes) (addr : Addr) (net : Upstream)
    (query_name : string) (query_type : Z) : M unit :=
  emit (Log (CacheMiss query_name query_type));;
  emit CreateSocket;;
  emit (SetTimeout 5);;
  upstream_sendto data net;;
  response ← upstream_recvfrom net;
  emit (SendClient response addr);;
  records ← lift CodecError (extract_records response);
  with_lock (for_each records store_record).

(** Lines 58-102. *)
Definition handle_request (data : bytes) (addr : Addr) (net : Upstream) : M unit :=
  try_except
    ('(query_name, query_type, tid) ← lift CodecError (parse_dns_response data);
     let key := cache_key query_type query_name in
     now ← time_time;
     returned ← check_cache data addr query_name query_type tid key now;
     if returned : bool then ret tt
     else forward data addr net query_name query_type)
    (λ e, Some (emit (Log (ErrorLine e data)))).

(** The loop of [run_dns_server] (lines 114-116) over the datagrams that
    arrive, each with what the upstream does for it.  Every handler thread is
    run to its end before the next datagram is taken: interleavings of
    handlers are not modelled. *)
Definition serve (packets : list (bytes * Addr * Upstream)) : M unit :=
  for_each packets (λ '(data, addr, net), handle_request data addr net).

End Server.

(** ** Worlds that differ in one field *)

Definition tick (w : World) : World :=
  {| cache := cache w; cache_file := cache_file w; ticks := S (ticks w) |}.

Definition with_cache (c : Cache) (w : World) : World :=
  {| cache := c; cache_file := cache_file w; ticks := ticks w |}.

(** ** Reading the lock off an event list *)

(** Socket sends and receives and file operations; log lines and the sweep's
    sleep are not counted. *)
Definition is_io (e : Event) : bool :=
  match e with
  | OpenRead _ | WriteFile _ _ | SendUpstream _ _ | RecvUpstream _
  | SendClient _ _ => true
  | _ => false
  end.

(** State of [cache_lock] after the events, [held] being its state before.
    [threading.Lock] is not reentrant: acquiring it while held blocks for
    ever, releasing it while free is an error; both give [None]. *)
Fixpoint lock_after (held : bool) (tr : list Event) : option bool :=
  match tr with
  | [] => Some held
  | Acquire :: rest => if held then None else lock_after true rest
  | Release :: rest => if held then lock_after false rest else None
  | _ :: rest => lock_after held rest
  end.

(** The I/O events performed while the lock is held. *)
Fixpoint io_under_lock (held : bool) (tr : list Event) : list Event :=
  match tr with
  | [] => []
  | Acquire :: rest => io_under_lock true rest
  | Release :: rest => io_under_lock false rest
  | e :: rest =>
      if held && is_io e then e :: io_under_lock held rest
      else io_under_lock held rest
  end.

(** The touches of the global dictionary made while the lock is free. *)
Fixpoint unlocked_touches (held : bool) (tr : list Event) : list access :=
  match tr with
  | [] => []
  | Acquire :: rest => unlocked_touches true rest
  | Release :: rest => unlocked_touches false rest
  | Touch a :: rest =>
      if held then unlocked_touches held rest
      else a :: unlocked_touches held rest
  | _ :: rest => unlocked_touches held rest
  end.

(** The events of a miss up to and including the send to the upstream. *)
Definition miss_prefix (data : bytes) (qn : string) (qt : Z) : list Event :=
  [Acquire; Touch Filter; Touch Evict; Release;
   Log (CacheMiss qn qt); CreateSocket; SetTimeout 5;
   SendUpstream data (UPSTREAM_DNS, 53%Z)].

Definition is_upstream_send (e : Event) : bool :=
  match e with
  | SendUpstream _ _ => true
  | _ => false
  end.

(** The reading of the specification: no lock scope spans any I/O. *)
Definition lock_never_spans_io (tr : list Event) : Prop :=
  io_under_lock false tr = [].

(** ** What the expiry filter computes *)

(** The value a key is left with: its live records, or nothing. *)
Definition keep (now : Q) (rs : list Entry) : option (list Entry) :=
  match live_records now rs with
  | [] => None
  | r :: l => Some (r :: l)
  end.

Definition live_part (now : Q) (d : Cache) : Cache := omap (keep now) d.

(** The reading of the specification of persist followed by load: the map
    persisted, less the entries whose ttl is exactly 0. *)
Definition drop_zero_ttl (d : Cache) : Cache :=
  (λ rs, List.filter (λ r, negb (ttl r =? 0)%Z) rs) <$> d.

(** ** The liveness test as binary64 computes it *)

(** [now] and [r['timestamp']] are floats: [now - r['timestamp']] is the
    exact difference rounded to the nearest binary64 number, ties to even.
    The comparison of that float with the integer [r['ttl']] is exact.  The
    definitions above take the difference itself; those below round it.
    Rationals stand for the values of the floats; overflow to infinity is
    left out. *)

(** The integer nearest to [q], the even one of two. *)
Definition rne (q : Q) : Z :=
  let f := Qfloor q in
  match (2 * (Qnum q mod Z.pos (Qden q)) ?= Z.pos (Qden q))%Z with
  | Lt => f
  | Gt => (f + 1)%Z
  | Eq => if Z.even f then f else (f + 1)%Z
  end.

Definition pow2 (e : Z) : Q := Qpower 2 e.

(** The exponent [e] of the last bit of a binary64 number of magnitude
    [a > 0]: [2^52 <= a / 2^e < 2^53], and [-1074] for the subnormal ones. *)
Definition ulp_exponent (a : Q) : Z :=
  let k := (Z.log2 (Qnum a) - Z.log2 (Z.pos (Qden a)))%Z in
  let top := if Qle_bool (pow2 k) a then k else (k - 1)%Z in
  Z.max (top - 52) (-1074).

Definition round64 (q : Q) : Q :=
  if Qeq_bool q 0 then 0%Q
  else let e := ulp_exponent (Qabs q) in
       (inject_Z (rne (q / pow2 e)) * pow2 e)%Q.

(** [x - y] on floats. *)
Definition fsub64 (x y : Q) : Q := round64 (x - y).

(** A subtraction that does not round a difference to below an integer it
    reaches. *)
Definition respects_integers (fsub : Q → Q → Q) : Prop :=
  ∀ (x y : Q) (n : Z),
    (Z.abs n < 2 ^ 53)%Z → (inject_Z n <= x - y)%Q → (inject_Z n <= fsub x y)%Q.

(** [now - r['timestamp'] < r['ttl']] with the subtraction [fsub]. *)
Definition is_live_by (fsub : Q → Q → Q) (now : Q) (r : Entry) : bool :=
  negb (Qle_bool (inject_Z (ttl r)) (fsub now (timestamp r))).

Definition valid_records_by (fsub : Q → Q → Q) (now : Q) (key : string)
    (c : Cache) : list Entry :=
  List.filter (is_live_by fsub now) (default [] (c !! key)).

(** Lines 65-74, as [check_cache], with the subtraction [fsub]. *)
Definition check_cache_by (fsub : Q → Q → Q)
    (build_dns_response : Z → bytes → list Entry → string → Z → option bytes)
    (data : bytes) (addr : Addr)
    (query_name : string) (query_type tid : Z) (key : string) (now : Q)
    : M bool :=
  with_lock
    (c ← get_cache Filter;
     match valid_records_by fsub now key c with
     | [] =>
         put_cache Evict (evict key c);;
         ret false
     | r :: rs =>
         emit (Log (CacheHit query_name query_type));;
         response ← lift CodecError
           (build_dns_response tid data (r :: rs) query_name query_type);
         emit (SendClient response addr);;
         ret true
     end).

(** ** The server as a whole (lines 105-124) *)

(** How the [try] block of [run_dns_server] is left.  The loop
    [while True] has no exit of its own. *)
Inductive Stop :=
| BindDenied      (* sock.bind raises PermissionError *)
| BindFails       (* sock.bind raises another exception *)
| ReceiveFails    (* sock.recvfrom raises an exception *)
| Interrupted.    (* sock.recvfrom is interrupted from the keyboard *)

Inductive ServerLine :=
| Started (port : Z)
| NeedsAdministrator (port : Z)
| ServerStopped.

Inductive ServerEvent :=
| Did (e : Event)                 (* an event of the load, of a handler or of the save *)
| StartSweeper                    (* Thread(target=cleanup_cache, daemon=True).start() *)
| OpenListener                    (* socket.socket(AF_INET, SOCK_DGRAM) *)
| BindListener (host : string) (port : Z)
| ReceiveDatagram (bufsize : Z)   (* sock.recvfrom(BUFFER_SIZE) *)
| Say (l : ServerLine).

Record ServerRun := {
  escapes : bool;                 (* an exception leaves run_dns_server *)
  final : World;
  server_events : list ServerEvent
}.

Section Listener.

Variable clock : nat → Q.
Variable parse_dns_response : bytes → option (string * Z * Z).
Variable extract_records : bytes → option (list ResourceRecord).
Variable build_dns_response :
  Z → bytes → list Entry → string → Z → option bytes.

(** Lines 114-116 over the datagrams that arrive, up to the [recvfrom] that
    raises.  A handler runs in a thread of its own: what it returns or
    raises does not reach the loop.  As in [serve], each handler is run to
    its end before the next datagram is taken. *)
Fixpoint receive_loop (packets : list (bytes * Addr * Upstream)) (w : World)
    : World * list ServerEvent :=
  match packets with
  | [] => (w, [ReceiveDatagram BUFFER_SIZE])
  | (data, addr, net) :: rest =>
      let handled := handle_request clock parse_dns_response extract_records
                       build_dns_response data addr net w in
      let '(w', later) := receive_loop rest (world handled) in
      (w', ReceiveDatagram BUFFER_SIZE :: (Did <$> events handled) ++ later)
  end.

(** Lines 105-124.  The sweeper thread is started but its turns are not
    interleaved here; creating the listening socket is taken to succeed.
    When the bind fails no datagram is received, whatever [packets] is. *)
Definition run_dns_server (stop : Stop)
    (packets : list (bytes * Addr * Upstream)) (w : World) : ServerRun :=
  let loaded := load_cache clock w in
  match res loaded with
  | Raise _ =>
      {| escapes := true; final := world loaded;
         server_events := Did <$> events loaded |}
  | Ok _ =>
      let bind := BindListener "0.0.0.0" PORT in
      let '(w1, body) :=
        match stop with
        | BindDenied => (world loaded, [bind; Say (NeedsAdministrator PORT)])
        | BindFails => (world loaded, [bind; Say ServerStopped])
        | ReceiveFails =>
            let '(w', received) := receive_loop packets (world loaded) in
            (w', [bind; Say (Started PORT)] ++ received ++ [Say ServerStopped])
        | Interrupted =>
            let '(w', received) := receive_loop packets (world loaded) in
            (w', [bind; Say (Started PORT)] ++ received)
        end in
      let saved := save_cache w1 in
      {| escapes := match stop, res saved with
                    | Interrupted, _ | _, Raise _ => true
                    | _, Ok _ => false
                    end;
         final := world saved;
         server_events := (Did <$> events loaded)
                          ++ [StartSweeper; OpenListener] ++ body
                          ++ (Did <$> events saved) |}
  end.

End Listener.

(** ** The snapshot file in every state *)

(** [File] has the three states of the snapshot file in which [load_cache]
    returns.  The file can be in two more, in which it raises: [json.load]
    raises [UnicodeDecodeError], and lines 25-28 raise [TypeError],
    [KeyError] or [IndexError], none of which lines 31 and 34 catch.  (The
    JSON values [[]] and [""] are in neither: they load without error and
    install a value that is not a dictionary.) *)
Inductive Disk :=
| AsFile (f : File)
| NotText       (* bytes that are not text in the encoding [open] reads
                   with, which is UTF-8 on most hosts: FF FE *)
| OtherJson.    (* JSON on which lines 25-28 raise: a number, null,
                   {"k": 5}, {"k": [{}]} *)

Inductive LoadError :=
| UnicodeDecodeError
| ShapeError.   (* TypeError, KeyError or IndexError of lines 25-28 *)

(** How [load_cache] ends: it returns, or an exception leaves it, with the
    world and the events up to there. *)
Inductive Startup :=
| Loaded (r : Run unit)
| Died (e : LoadError) (w : World) (evs : list Event).

Definition with_file (f : File) (w : World) : World :=
  {| cache := cache w; cache_file := f; ticks := ticks w |}.

(** Lines 18-36 with the file in state [d].  In state [NotText] the
    exception comes from line 22, before the clock is read; in state
    [OtherJson] from the loop of lines 25-28, inside the lock and before
    [cache = raw]. *)
Definition load_cache_on (clock : nat → Q) (d : Disk) (w : World) : Startup :=
  match d with
  | AsFile f => Loaded (load_cache clock (with_file f w))
  | NotText => Died UnicodeDecodeError w [OpenRead CACHE_FILE]
  | OtherJson => Died ShapeError (tick w) [OpenRead CACHE_FILE; Acquire; Release]
  end.

(** Lines 105-124 with the file in state [d]: [load_cache()] of line 106 is
    outside the [try], so an exception that leaves it leaves
    [run_dns_server] before the sweeper is started. *)
Definition run_dns_server_on (clock : nat → Q)
    (parse_dns_response : bytes → option (string * Z * Z))
    (extract_records : bytes → option (list ResourceRecord))
    (build_dns_response : Z → bytes → list Entry → string → Z → option bytes)
    (d : Disk) (stop : Stop) (packets : list (bytes * Addr * Upstream))
    (w : World) : ServerRun :=
  match load_cache_on clock d w, d with
  | Died _ w' evs, _ =>
      {| escapes := true; final := w'; server_events := Did <$> evs |}
  | Loaded _, AsFile f =>
      run_dns_server clock parse_dns_response extract_records
        build_dns_response stop packets (with_file f w)
  | Loaded r, _ =>
      {| escapes := false; final := world r; server_events := Did <$> events r |}
  end.

(** ** Predicates of the further properties *)

(** No key is bound to the empty list. *)
Definition nonempty_buckets (c : Cache) : Prop :=
  ∀ k rs, c !! k = Some rs → rs ≠ [].

(** The clock never goes back. *)
Definition nondecreasing (clock : nat → Q) : Prop :=
  ∀ n, (clock n <= clock (S n))%Q.

Definition is_client_send (e : Event) : bool :=
  match e with
  | SendClient _ _ => true
  | _ => false
  end.

Definition is_file_event (e : Event) : bool :=
  match e with
  | OpenRead _ | WriteFile _ _ => true
  | _ => false
  end.

(** No character of the string is a colon. *)
Fixpoint colon_free (s : string) : Prop :=
  match s with
  | EmptyString => True
  | String a rest => a ≠ ":"%char ∧ colon_free rest
  end.

(** ** A query decoder and sample data *)

Definition be16 (hi lo : byte) : Z :=
  (Z.of_N (Byte.to_N hi) * 256 + Z.of_N (Byte.to_N lo))%Z.

(** Modelled from the spec: the labels of a question as section 4.1 has
    them, each a length byte and that many bytes, up to the zero-length
    label; a length that runs past the end of the buffer or a buffer that
    ends before the zero-length label is a decode error.  [fuel] bounds the
    number of labels read. *)
Fixpoint read_labels (fuel : nat) (bs : bytes) : option (list string * bytes) :=
  match fuel with
  | O => None
  | S fuel' =>
      match bs with
      | [] => None
      | len :: rest =>
          let n := N.to_nat (Byte.to_N len) in
          if (n =? 0)%nat then Some ([], rest)
          else if (length rest <? n)%nat then None
          else match read_labels fuel' (drop n rest) with
               | Some (labels, rest') =>
                   Some (String.string_of_list_byte (take n rest) :: labels, rest')
               | None => None
               end
      end
  end.

(** Modelled from the spec: [parse_dns_response] of [utils], which is not
    among the sources.  Section 4.1 (decodeQuery): a fixed 12-byte header
    (transaction id, flags, four 16-bit counts), then the question: labels
    ended by a zero-length label, a 16-bit type and a 16-bit class, all
    big-endian; the result is the dotted name, the type and the transaction
    id; truncated input, a label running past the end of the buffer and a
    missing final label are decode errors. *)
Definition decodeQuery (bs : bytes) : option (string * Z * Z) :=
  match bs with
  | id1 :: id2 :: _ :: _ :: _ :: _ :: _ :: _ :: _ :: _ :: _ :: _ :: question =>
      match read_labels (S (length question)) question with
      | Some (labels, ty1 :: ty2 :: _ :: _ :: _) =>
          Some (String.concat "." labels, be16 ty1 ty2, be16 id1 id2)
      | _ => None
      end
  | _ => None
  end.

Module Sample.

(** A query for the A record of example.com, transaction id 0x1234. *)
Definition query : bytes :=
  [x12; x34; x01; x00; x00; x01; x00; x00; x00; x00; x00; x00]
  ++ [x07] ++ String.list_byte_of_string "example"
  ++ [x03] ++ String.list_byte_of_string "com"
  ++ [x00; x00; x01; x00; x01].

(** Five bytes: shorter than a header. *)
Definition short_packet : bytes := [x12; x34; x01; x00; x00].

Definition client : Addr := ("192.0.2.7", 40000%Z).

Definition key : string := cache_key 1 "example.com".

Definition a_record : ResourceRecord :=
  {| rr_name := "example.com"; rr_type := 1; rr_data := "1.2.3.4";
     rr_ttl := 300 |}.

Definition reply : bytes := [x12; x34; x81; x80].

(** Stand-ins for the two other functions of the codec. *)
Definition extract (response : bytes) : option (list ResourceRecord) :=
  Some [a_record].

Definition build (tid : Z) (q : bytes) (records : list Entry)
    (nm : string) (rtype : Z) : option bytes :=
  Some (take 2 q ++ [x81; x80] ++ List.repeat x01 (length records)).

(** A clock that reads 1000, 1001, 1002, ... *)
Definition clock (n : nat) : Q := inject_Z (1000 + Z.of_nat n).

Definition fresh_entry : Entry := new_entry a_record 990.
Definition stale_entry : Entry := new_entry a_record 100.

Definition empty_world : World :=
  {| cache := ∅; cache_file := Missing; ticks := 0 |}.

(** The answer is cached and still live at time 1000. *)
Definition warm_world : World :=
  {| cache := {[ key := [fresh_entry] ]}; cache_file := Missing; ticks := 0 |}.

(** The answer is cached but expired at time 400 (ttl 300, stored at 100). *)
Definition stale_world : World :=
  {| cache := {[ key := [stale_entry] ]}; cache_file := Missing; ticks := 0 |}.

(** A live and an expired entry under the same key. *)
Definition mixed_world : World :=
  {| cache := {[ key := [stale_entry; fresh_entry] ]};
     cache_file := Missing; ticks := 0 |}.

(** An entry stored at 100.00000000000001 (the float 100 + 2^-46) with
    ttl 900, alone under its key. *)
Definition rounding_entry : Entry :=
  {| name := "example.com"; type := 1; data := "1.2.3.4"; ttl := 900;
     timestamp := 7036874417766401 # 70368744177664 |}.

Definition rounding_world : World :=
  {| cache := {[ key := [rounding_entry] ]}; cache_file := Missing;
     ticks := 0 |}.

(** A dictionary with two keys: an expired A record and a live AAAA
    record. *)
Definition aaaa_record : ResourceRecord :=
  {| rr_name := "example.com"; rr_type := 28; rr_data := "2001:db8::1";
     rr_ttl := 300 |}.

Definition key6 : string := cache_key 28 "example.com".

Definition two_keys : Cache :=
  <[ key := [stale_entry] ]> {[ key6 := [new_entry aaaa_record 990] ]}.

(** A second client and two datagrams in a row. *)
Definition other_client : Addr := ("192.0.2.9", 40001%Z).

Definition two_packets : list (bytes * Addr * Upstream) :=
  [(query, client, Replies reply); (query, other_client, TimesOut)].

(** The handler with this codec and clock, for this client. *)
Definition handle (net : Upstream) (packet : bytes) (w : World) : Run unit :=
  handle_request clock decodeQuery extract build packet client net w.

End Sample.

(** * Properties *)

(** [x ∉ l] for a list [l] written out, none of whose elements can be [x]. *)
Ltac absent :=
  let H := fresh in
  intros H;
  repeat (apply elem_of_cons in H as [H|H]; [discriminate H |]);
  by apply elem_of_nil in H.

(** ** Liveness *)

Lemma is_live_spec now r : is_live now r = true ↔ live now r.
Proof.
  unfold is_live, live. rewrite negb_true_iff.
  destruct (Qle_bool (inject_Z (ttl r)) (now - timestamp r)) eqn:E.
  - apply Qle_bool_iff in E. split; [discriminate | intros H; lra].
  - split; [intros _ | reflexivity].
    apply Qnot_le_lt. intros H. apply Qle_bool_iff in H. congruence.
Qed.

Lemma live_window now r :
  live now r ↔ (now < timestamp r + inject_Z (ttl r))%Q.
Proof. unfold live. split; intros H; lra. Qed.

Lemma elem_of_live_records now e rs :
  e ∈ live_records now rs ↔ e ∈ rs ∧ live now e.
Proof.
  unfold live_records. rewrite !list_elem_of_In, filter_In, is_live_spec.
  reflexivity.
Qed.

Lemma live_records_all now rs :
  (∀ e, e ∈ rs → live now e) → live_records now rs = rs.
Proof.
  induction rs as [|r rs IH]; intros H; [reflexivity |].
  unfold live_records in *. simpl.
  assert (is_live now r = true) as ->
    by (apply is_live_spec, H; left).
  f_equal. apply IH. intros e He. apply H. by right.
Qed.

Lemma keep_Some now rs l :
  keep now rs = Some l ↔ live_records now rs = l ∧ l ≠ [].
Proof.
  unfold keep. destruct (live_records now rs) as [|r l']; split.
  - discriminate.
  - intros [<- H]. congruence.
  - intros [= <-]. done.
  - intros [<- _]. done.
Qed.

Lemma keep_None now rs : keep now rs = None ↔ live_records now rs = [].
Proof. unfold keep. by destruct (live_records now rs). Qed.

(** ** The expiry loop ends normally and leaves the live part *)

Lemma purge_keys_spec now keys :
  NoDup keys →
  ∀ d : Cache,
    (∀ k, k ∈ keys → is_Some (d !! k)) →
    ∃ d' : Cache,
      purge_keys now keys d = (d', Ok tt) ∧
      ∀ k, d' !! k = if decide (k ∈ keys) then d !! k ≫= keep now else d !! k.
Proof.
  induction 1 as [|key rest Hnotin Hnd IH]; intros d Hdom.
  - exists d. split; [reflexivity |]. intros k. case_decide; [|done].
    by apply elem_of_nil in H.
  - destruct (Hdom key) as [rs Hrs]; [left |]. simpl. rewrite Hrs.
    assert (∀ d1 : Cache, (∀ k, k ≠ key → d1 !! k = d !! k) →
            ∀ k, k ∈ rest → is_Some (d1 !! k)) as Hrest.
    { intros d1 Hd1 k Hk. rewrite Hd1; [apply Hdom; by right |].
      intros ->. contradiction. }
    destruct (live_records now rs) as [|r l] eqn:Hlive.
    + destruct (IH (delete key (<[key:=[]]> d))) as (d' & Hrun & Hd').
      { apply Hrest. intros k Hk.
        by rewrite lookup_delete_ne, lookup_insert_ne. }
      exists d'. split; [exact Hrun |]. intros k. rewrite Hd'.
      destruct (decide (k = key)) as [->|Hne].
      * rewrite decide_False by done. rewrite decide_True by left.
        rewrite lookup_delete_eq, Hrs. simpl. symmetry.
        by apply keep_None.
      * rewrite lookup_delete_ne, lookup_insert_ne by done.
        repeat case_decide; try done.
        -- exfalso. apply H0. by right.
        -- apply elem_of_cons in H0 as [?|?]; done.
    + destruct (IH (<[key:=r :: l]> d)) as (d' & Hrun & Hd').
      { apply Hrest. intros k Hk. by rewrite lookup_insert_ne. }
      exists d'. split; [exact Hrun |]. intros k. rewrite Hd'.
      destruct (decide (k = key)) as [->|Hne].
      * rewrite decide_False by done. rewrite decide_True by left.
        rewrite lookup_insert_eq, Hrs. simpl. symmetry.
        by apply keep_Some.
      * rewrite lookup_insert_ne by done.
        repeat case_decide; try done.
        -- exfalso. apply H0. by right.
        -- apply elem_of_cons in H0 as [?|?]; done.
Qed.

Lemma elem_of_keys_of (d : Cache) k : k ∈ keys_of d ↔ is_Some (d !! k).
Proof.
  unfold keys_of. rewrite list_elem_of_fmap. split.
  - intros ([k' rs] & -> & H). apply elem_of_map_to_list in H. eauto.
  - intros [rs H]. exists (k, rs). split; [done |].
    by apply elem_of_map_to_list.
Qed.

Lemma purge_ok now (d : Cache) : purge now d = (live_part now d, Ok tt).
Proof.
  unfold purge.
  destruct (purge_keys_spec now (keys_of d)) with (d := d)
    as (d' & -> & Hd').
  - apply NoDup_fst_map_to_list.
  - intros k. by rewrite elem_of_keys_of.
  - f_equal. apply map_eq. intros k. rewrite Hd'.
    unfold live_part. rewrite lookup_omap. case_decide as Hk; [done |].
    rewrite elem_of_keys_of in Hk.
    destruct (d !! k) eqn:E; [|done]. exfalso. eauto.
Qed.

Lemma lookup_live_part now (d : Cache) k :
  live_part now d !! k = d !! k ≫= keep now.
Proof. unfold live_part. apply lookup_omap. Qed.

Example decodeQuery_sample :
  decodeQuery Sample.query = Some ("example.com", 1%Z, 4660%Z).
Proof. reflexivity. Qed.

Example decodeQuery_short_packet : decodeQuery Sample.short_packet = None.
Proof. reflexivity. Qed.

Lemma decodeQuery_short (bs : bytes) :
  (length bs < 12)%nat → decodeQuery bs = None.
Proof.
  intros H. unfold decodeQuery.
  do 12 (destruct bs as [|? bs]; [reflexivity |]).
  simpl in H. lia.
Qed.

(** ** Insertion *)

Lemma lookup_insert_key rec t (c : Cache) :
  insert rec t c !! cache_key (rr_type rec) (rr_name rec)
  = Some (default [] (c !! cache_key (rr_type rec) (rr_name rec))
          ++ [new_entry rec t]).
Proof. unfold insert, append_entry. apply lookup_insert_eq. Qed.

Lemma lookup_insert_other rec t (c : Cache) k :
  k ≠ cache_key (rr_type rec) (rr_name rec) → insert rec t c !! k = c !! k.
Proof. intros H. unfold insert, append_entry. by apply lookup_insert_ne. Qed.

Lemma lookup_store_all clock records : ∀ n (c : Cache) k,
  store_all clock n records c !! k =
    match entries_for clock n k records with
    | [] => c !! k
    | e :: es => Some (default [] (c !! k) ++ e :: es)
    end.
Proof.
  induction records as [|rec rest IH]; intros n c k; [reflexivity |].
  simpl. rewrite IH. case_decide as Hk.
  - subst k. rewrite lookup_insert_key. simpl.
    destruct (entries_for clock (S n) _ rest); [done |].
    by rewrite <- app_assoc.
  - by rewrite lookup_insert_other.
Qed.

Lemma evict_delete key (c : Cache) : evict key c = delete key c.
Proof.
  unfold evict. destruct (c !! key) eqn:E; [done |].
  symmetry. by apply delete_id.
Qed.

(** ** The key is the pair of the type and the name *)

Lemma pretty_N_go_colon_free (x : N) : ∀ s,
  colon_free s → colon_free (pretty_N_go x s).
Proof.
  induction (N.lt_wf_0 x) as [x _ IH]; intros s Hs.
  assert (x = 0 ∨ 0 < x)%N as [->|Hpos] by lia.
  - by rewrite pretty_N_go_0.
  - rewrite pretty_N_go_step by done. apply IH.
    + by apply N.div_lt.
    + split; [|done]. unfold pretty_N_char. by repeat case_match.
Qed.

Lemma pretty_Z_colon_free (z : Z) : colon_free (pretty z).
Proof.
  assert (∀ p : positive, colon_free (pretty p)) as Hpos.
  { intros p. unfold pretty, pretty_positive, pretty, pretty_N.
    case_decide; [done |]. by apply pretty_N_go_colon_free. }
  destruct z as [|p|p]; [done | apply Hpos |].
  split; [done | apply Hpos].
Qed.

Lemma split_at_colon (s1 : string) : ∀ s2 n1 n2,
  colon_free s1 → colon_free s2 →
  s1 +:+ ":" +:+ n1 = s2 +:+ ":" +:+ n2 → s1 = s2 ∧ n1 = n2.
Proof.
  induction s1 as [|a s1 IH]; intros [|b s2] n1 n2 H1 H2 Heq; simpl in *.
  - injection Heq as Hn. by subst.
  - injection Heq as Hb _. destruct H2 as [H2 _]. by subst.
  - injection Heq as Ha _. destruct H1 as [H1 _]. by subst.
  - injection Heq as Hab Heq. destruct H1 as [_ H1], H2 as [_ H2].
    destruct (IH s2 n1 n2 H1 H2 Heq) as [Hs Hn]. by subst.
Qed.

Lemma cache_key_pair (t1 t2 : Z) (n1 n2 : string) :
  cache_key t1 n1 = cache_key t2 n2 → t1 = t2 ∧ n1 = n2.
Proof.
  unfold cache_key. intros Heq.
  apply split_at_colon in Heq as [Ht ->]; [|apply pretty_Z_colon_free ..].
  split; [|done]. by apply (inj pretty).
Qed.

(** ** What each operation does, as one run *)

Section Runs.

Variable clock : nat → Q.
Variable parse_dns_response : bytes → option (string * Z * Z).
Variable extract_records : bytes → option (list ResourceRecord).
Variable build_dns_response :
  Z → bytes → list Entry → string → Z → option bytes.

Local Abbreviation handle_request :=
  (handle_request clock parse_dns_response extract_records build_dns_response).

Lemma save_cache_run w :
  save_cache w =
    {| res := Ok tt;
       world := {| cache := cache w; cache_file := Snapshot (cache w);
                   ticks := ticks w |};
       events := [Acquire; Touch Dump; WriteFile CACHE_FILE (cache w); Release] |}.
Proof. reflexivity. Qed.

Lemma load_cache_missing w :
  cache_file w = Missing →
  load_cache clock w =
    {| res := Ok tt; world := with_cache ∅ w;
       events := [OpenRead CACHE_FILE; Log InfoNoCache; Touch Clear] |}.
Proof.
  destruct w as [c f n]. simpl. intros ->. reflexivity.
Qed.

Lemma load_cache_unparseable w :
  cache_file w = Unparseable →
  load_cache clock w =
    {| res := Ok tt; world := with_cache ∅ w;
       events := [OpenRead CACHE_FILE; Log WarnCorrupt; Touch Clear] |}.
Proof.
  destruct w as [c f n]. simpl. intros ->. reflexivity.
Qed.

Lemma load_cache_snapshot w raw :
  cache_file w = Snapshot raw →
  load_cache clock w =
    {| res := Ok tt;
       world := with_cache (live_part (clock (ticks w)) raw) (tick w);
       events := [OpenRead CACHE_FILE; Acquire; Touch Install; Release;
                  Touch Len;
                  Log (InfoLoaded (size (live_part (clock (ticks w)) raw)))] |}.
Proof.
  destruct w as [c f n]. simpl. intros ->.
  unfold load_cache, try_except, mbind, M_bind, bind. simpl.
  rewrite purge_ok. reflexivity.
Qed.

Lemma cleanup_round_run w :
  let swept := live_part (clock (ticks w)) (cache w) in
  cleanup_round clock w =
    {| res := Ok tt;
       world := {| cache := swept; cache_file := Snapshot swept;
                   ticks := S (ticks w) |};
       events := [Sleep 60; Acquire; Touch Filter; Touch Filter; Release;
                  Acquire; Touch Dump; WriteFile CACHE_FILE swept; Release;
                  Touch Len; Log (InfoSwept (size swept))] |}.
Proof.
  unfold cleanup_round, mbind, M_bind, bind. simpl.
  rewrite purge_ok. reflexivity.
Qed.

Lemma check_cache_run data addr qn qt tid key now w :
  check_cache build_dns_response data addr qn qt tid key now w =
    match valid_records now key (cache w) with
    | [] =>
        {| res := Ok false; world := with_cache (evict key (cache w)) w;
           events := [Acquire; Touch Filter; Touch Evict; Release] |}
    | r :: rs =>
        match build_dns_response tid data (r :: rs) qn qt with
        | Some response =>
            {| res := Ok true; world := w;
               events := [Acquire; Touch Filter; Log (CacheHit qn qt);
                          SendClient response addr; Release] |}
        | None =>
            {| res := Raise CodecError; world := w;
               events := [Acquire; Touch Filter; Log (CacheHit qn qt);
                          Release] |}
        end
    end.
Proof.
  unfold check_cache, with_lock, mbind, M_bind, bind. simpl.
  destruct (valid_records now key (cache w)) as [|r rs]; [reflexivity |].
  simpl. destruct (build_dns_response tid data (r :: rs) qn qt); reflexivity.
Qed.

Lemma store_records_run records : ∀ w,
  for_each records (store_record clock) w =
    {| res := Ok tt;
       world := {| cache := store_all clock (ticks w) records (cache w);
                   cache_file := cache_file w;
                   ticks := length records + ticks w |};
       events := records ≫= λ _, [Touch Append] |}.
Proof.
  induction records as [|rec rest IH]; intros w.
  - by destruct w.
  - simpl. unfold mbind at 1, M_bind, bind. simpl. rewrite IH. simpl.
    repeat f_equal. lia.
Qed.

Lemma handle_request_undecodable data addr net w :
  parse_dns_response data = None →
  handle_request data addr net w =
    {| res := Ok tt; world := w;
       events := [Log (ErrorLine CodecError data)] |}.
Proof.
  intros H. unfold handle_request, try_except, mbind, M_bind, bind.
  rewrite H. reflexivity.
Qed.

Lemma handle_request_hit data addr net w qn qt tid r rs response :
  parse_dns_response data = Some (qn, qt, tid) →
  valid_records (clock (ticks w)) (cache_key qt qn) (cache w) = r :: rs →
  build_dns_response tid data (r :: rs) qn qt = Some response →
  handle_request data addr net w =
    {| res := Ok tt; world := tick w;
       events := [Acquire; Touch Filter; Log (CacheHit qn qt);
                  SendClient response addr; Release] |}.
Proof.
  intros Hparse Hvalid Hbuild.
  unfold handle_request, try_except, mbind, M_bind, bind.
  rewrite Hparse. cbn -[check_cache]. rewrite check_cache_run.
  cbn -[valid_records evict store_record].
  rewrite Hvalid, Hbuild. reflexivity.
Qed.

Lemma handle_request_hit_unbuilt data addr net w qn qt tid r rs :
  parse_dns_response data = Some (qn, qt, tid) →
  valid_records (clock (ticks w)) (cache_key qt qn) (cache w) = r :: rs →
  build_dns_response tid data (r :: rs) qn qt = None →
  handle_request data addr net w =
    {| res := Ok tt; world := tick w;
       events := [Acquire; Touch Filter; Log (CacheHit qn qt); Release;
                  Log (ErrorLine CodecError data)] |}.
Proof.
  intros Hparse Hvalid Hbuild.
  unfold handle_request, try_except, mbind, M_bind, bind.
  rewrite Hparse. cbn -[check_cache]. rewrite check_cache_run.
  cbn -[valid_records evict store_record].
  rewrite Hvalid, Hbuild. reflexivity.
Qed.

Lemma handle_request_miss data addr net w qn qt tid :
  parse_dns_response data = Some (qn, qt, tid) →
  valid_records (clock (ticks w)) (cache_key qt qn) (cache w) = [] →
  let evicted := evict (cache_key qt qn) (cache w) in
  handle_request data addr net w =
    match net with
    | SendFails =>
        {| res := Ok tt; world := with_cache evicted (tick w);
           events := miss_prefix data qn qt
                     ++ [Log (ErrorLine SocketError data)] |}
    | TimesOut =>
        {| res := Ok tt; world := with_cache evicted (tick w);
           events := miss_prefix data qn qt
                     ++ [RecvUpstream BUFFER_SIZE;
                         Log (ErrorLine SocketTimeout data)] |}
    | RecvFails =>
        {| res := Ok tt; world := with_cache evicted (tick w);
           events := miss_prefix data qn qt
                     ++ [RecvUpstream BUFFER_SIZE;
                         Log (ErrorLine SocketError data)] |}
    | Replies response =>
        match extract_records response with
        | Some records =>
            {| res := Ok tt;
               world := {| cache := store_all clock (S (ticks w)) records evicted;
                           cache_file := cache_file w;
                           ticks := length records + S (ticks w) |};
               events := miss_prefix data qn qt
                         ++ [RecvUpstream BUFFER_SIZE; SendClient response addr;
                             Acquire]
                         ++ (records ≫= λ _, [Touch Append])
                         ++ [Release] |}
        | None =>
            {| res := Ok tt; world := with_cache evicted (tick w);
               events := miss_prefix data qn qt
                         ++ [RecvUpstream BUFFER_SIZE; SendClient response addr;
                             Log (ErrorLine CodecError data)] |}
        end
    end.
Proof.
  intros Hparse Hvalid evicted.
  unfold handle_request, try_except, mbind, M_bind, bind.
  rewrite Hparse. cbn -[check_cache]. rewrite check_cache_run.
  cbn -[valid_records evict store_record]. rewrite Hvalid.
  cbn -[store_record]. destruct net as [| | |response]; try reflexivity.
  simpl. destruct (extract_records response) as [records|]; [|reflexivity].
  simpl. unfold with_lock. rewrite store_records_run. reflexivity.
Qed.

(** The handler never lets an exception escape: a handler thread always ends
    normally. *)
Lemma handle_request_returns data addr net w :
  res (handle_request data addr net w) = Ok tt.
Proof.
  destruct (parse_dns_response data) as [[[qn qt] tid]|] eqn:Hparse.
  - destruct (valid_records (clock (ticks w)) (cache_key qt qn) (cache w))
      as [|r rs] eqn:Hvalid.
    + rewrite (handle_request_miss _ _ _ _ _ _ _ Hparse Hvalid).
      destruct net; [reflexivity .. |].
      by destruct (extract_records response).
    + destruct (build_dns_response tid data (r :: rs) qn qt) eqn:Hbuild.
      * by erewrite handle_request_hit.
      * by erewrite handle_request_hit_unbuilt.
  - by rewrite handle_request_undecodable.
Qed.

End Runs.

(** ** The cache check *)

Lemma rne_above (j : Z) (q : Q) : (inject_Z j <= q)%Q → (j ≤ rne q)%Z.
Proof.
  intros H. apply Qfloor_resp_le in H. rewrite Qfloor_Z in H.
  unfold rne. destruct (_ ?= _)%Z; [destruct (Z.even _) | |]; lia.
Qed.

Lemma pow2_pos (e : Z) : (0 < pow2 e)%Q.
Proof. apply Qpower_0_lt. reflexivity. Qed.

Lemma pow2_add (a b : Z) : (pow2 (a + b) == pow2 a * pow2 b)%Q.
Proof. apply Qpower_plus. discriminate. Qed.

Lemma pow2_Z (e : Z) : (0 ≤ e)%Z → (pow2 e == inject_Z (2 ^ e))%Q.
Proof. intros H. symmetry. apply (Zpower_Qpower 2 e H). Qed.

Lemma pow2_le (a b : Z) : (a ≤ b)%Z → (pow2 a <= pow2 b)%Q.
Proof. intros H. apply Qpower_le_compat_l; [exact H | discriminate]. Qed.

Lemma pow2_below (a : Q) :
  (0 < a)%Q →
  let k := (Z.log2 (Qnum a) - Z.log2 (Z.pos (Qden a)))%Z in
  (pow2 (if Qle_bool (pow2 k) a then k else (k - 1)%Z) <= a)%Q.
Proof.
  intros Ha k. destruct (Qle_bool (pow2 k) a) eqn:E.
  - apply Qle_bool_iff, E.
  - assert (0 < Qnum a)%Z as Hn.
    { destruct a as [n d]. unfold Qlt in Ha. simpl in *. lia. }
    pose proof (Z.log2_spec (Qnum a) Hn) as [Hlo _].
    pose proof (Z.log2_spec (Z.pos (Qden a)) (Pos2Z.is_pos _)) as [_ Hhi].
    pose proof (Z.log2_nonneg (Qnum a)) as Hln.
    pose proof (Z.log2_nonneg (Z.pos (Qden a))) as Hld.
    set (ln := Z.log2 (Qnum a)) in *. set (ld := Z.log2 (Z.pos (Qden a))) in *.
    replace (k - 1)%Z with (ln + - Z.succ ld)%Z by (subst k; lia).
    rewrite pow2_add. unfold pow2 at 2. rewrite Qpower_opp.
    fold (pow2 (Z.succ ld)).
    rewrite !pow2_Z by lia.
    assert (a == inject_Z (Qnum a) / inject_Z (Z.pos (Qden a)))%Q as ->
      by (destruct a; apply Qmake_Qdiv).
    apply Qle_shift_div_l; [reflexivity |].
    unfold Qdiv. rewrite <- Qmult_assoc, (Qmult_comm (/ _)), Qmult_assoc.
    apply Qle_shift_div_r.
    + rewrite <- (pow2_Z (Z.succ ld)) by lia. apply pow2_pos.
    + rewrite <- !inject_Z_mult, <- Zle_Qle.
      apply Z.mul_le_mono_nonneg; lia.
Qed.

(** Rounding to binary64 does not take a number to below an integer of
    magnitude under [2^53] that it reaches. *)
Lemma round64_above_integer (q : Q) (n : Z) :
  (Z.abs n < 2 ^ 53)%Z → (inject_Z n <= q)%Q → (inject_Z n <= round64 q)%Q.
Proof.
  intros Hn Hq. unfold round64.
  destruct (Qeq_bool q 0) eqn:Hzero.
  - apply Qeq_bool_iff in Hzero. lra.
  - apply Qeq_bool_neq in Hzero.
    set (e := ulp_exponent (Qabs q)).
    pose proof (pow2_pos e) as He.
    destruct (Z_le_gt_dec e 0) as [Hle|Hgt].
    + assert (inject_Z n == inject_Z (n * 2 ^ (- e)) * pow2 e)%Q as Hj.
      { rewrite inject_Z_mult, <- (pow2_Z (- e)) by lia.
        rewrite <- Qmult_assoc, <- pow2_add.
        replace (- e + e)%Z with 0%Z by lia. unfold pow2. simpl. ring. }
      rewrite Hj. apply Qmult_le_compat_r; [|lra].
      rewrite <- Zle_Qle. apply rne_above.
      apply Qle_shift_div_l; [exact He |]. rewrite <- Hj. exact Hq.
    + assert (0 < Qabs q)%Q as Hpos.
      { pose proof (Qabs_nonneg q) as H0.
        destruct (Qlt_le_dec 0 (Qabs q)) as [?|Hz]; [assumption |].
        exfalso. apply Hzero.
        assert (Qabs q == 0)%Q as Habs by lra.
        destruct (Qlt_le_dec q 0) as [Hneg|Hnn].
        - rewrite Qabs_neg in Habs by lra. lra.
        - rewrite Qabs_pos in Habs by lra. lra. }
      pose proof (pow2_below (Qabs q) Hpos) as Htop. cbv zeta in Htop.
      set (top := if Qle_bool _ _ then _ else _) in Htop.
      assert (e = top - 52)%Z as Hetop.
      { unfold e, ulp_exponent in *. fold top in Hgt |- *. lia. }
      assert (pow2 53 <= Qabs q)%Q as Hbig.
      { eapply Qle_trans; [|exact Htop]. apply pow2_le. lia. }
      assert (pow2 53 == inject_Z (2 ^ 53))%Q as H53 by (apply pow2_Z; lia).
      assert (inject_Z n < inject_Z (2 ^ 53)
              ∧ - inject_Z (2 ^ 53) < inject_Z n)%Q as [Hn1 Hn2].
      { rewrite <- inject_Z_opp, <- !Zlt_Qlt. lia. }
      destruct (Qlt_le_dec q 0) as [Hneg|Hnn].
      * rewrite Qabs_neg in Hbig by lra. lra.
      * rewrite Qabs_pos in Htop by lra.
        assert (inject_Z (2 ^ 52) <= q / pow2 e)%Q as Hm.
        { apply Qle_shift_div_l; [exact He |].
          rewrite <- (pow2_Z 52) by lia. rewrite <- pow2_add.
          replace (52 + e)%Z with top by lia. exact Htop. }
        apply rne_above in Hm. rewrite Zle_Qle in Hm.
        apply Qle_trans with (inject_Z (2 ^ 52) * pow2 e)%Q.
        -- rewrite <- (pow2_Z 52) by lia. rewrite <- pow2_add.
           replace (52 + e)%Z with top by lia.
           apply Qle_trans with (pow2 53); [lra |]. apply pow2_le. lia.
        -- apply Qmult_le_compat_r; [exact Hm | lra].
Qed.

Lemma fsub64_respects_integers : respects_integers fsub64.
Proof. intros x y n Hn H. by apply round64_above_integer. Qed.

Lemma exact_respects_integers : respects_integers Qminus.
Proof. intros x y n _ H. exact H. Qed.

Lemma is_live_by_spec fsub now r :
  is_live_by fsub now r = true
  ↔ (fsub now (timestamp r) < inject_Z (ttl r))%Q.
Proof.
  unfold is_live_by. rewrite negb_true_iff.
  destruct (Qle_bool (inject_Z (ttl r)) (fsub now (timestamp r))) eqn:E.
  - apply Qle_bool_iff in E. split; [discriminate | intros H; lra].
  - split; [intros _ | reflexivity].
    apply Qnot_le_lt. intros H. apply Qle_bool_iff in H. congruence.
Qed.

(** With the exact difference the check is the one of [check_cache]. *)
Lemma check_cache_by_exact build_dns_response data addr qn qt tid key now :
  check_cache_by Qminus build_dns_response data addr qn qt tid key now
  = check_cache build_dns_response data addr qn qt tid key now.
Proof. reflexivity. Qed.

Lemma check_cache_by_run fsub build_dns_response data addr qn qt tid key now w :
  check_cache_by fsub build_dns_response data addr qn qt tid key now w =
    match valid_records_by fsub now key (cache w) with
    | [] =>
        {| res := Ok false; world := with_cache (evict key (cache w)) w;
           events := [Acquire; Touch Filter; Touch Evict; Release] |}
    | r :: rs =>
        match build_dns_response tid data (r :: rs) qn qt with
        | Some response =>
            {| res := Ok true; world := w;
               events := [Acquire; Touch Filter; Log (CacheHit qn qt);
                          SendClient response addr; Release] |}
        | None =>
            {| res := Raise CodecError; world := w;
               events := [Acquire; Touch Filter; Log (CacheHit qn qt);
                          Release] |}
        end
    end.
Proof.
  unfold check_cache_by, with_lock, mbind, M_bind, bind. simpl.
  destruct (valid_records_by fsub now key (cache w)) as [|r rs];
    [reflexivity |].
  simpl. destruct (build_dns_response tid data (r :: rs) qn qt); reflexivity.
Qed.

(** C2 (as amended). The cache check of the handler (lines 65-74), made at
    time [now] for [key], finds exactly the stored entries of the key that
    pass the test of the code, [now - timestamp < ttl] with the difference
    rounded to binary64.  An entry stored at [T] with ttl [D], [|D| < 2^53],
    is found at no [now >= T + D], and what is found would be found with the
    exact difference too; at [T <= now < T + D] the entry is found whenever
    the difference is computed exactly.  The answer of a hit is built from
    the entries found; when none is found the block sends nothing and leaves
    the key out of the dictionary. *)
Theorem cache_check_under_binary64
    (build_dns_response : Z → bytes → list Entry → string → Z → option bytes)
    (data : bytes) (addr : Addr) (qn : string) (qt tid : Z)
    (key : string) (now : Q) (w : World) :
  let stored := default [] (cache w !! key) in
  let found := valid_records_by fsub64 now key (cache w) in
  let r := check_cache_by fsub64 build_dns_response data addr qn qt tid key
             now w in
  (∀ e, e ∈ found
        ↔ e ∈ stored ∧ (fsub64 now (timestamp e) < inject_Z (ttl e))%Q)
  ∧ (∀ e, e ∈ stored →
          (fsub64 now (timestamp e) == now - timestamp e)%Q →
          (timestamp e <= now)%Q →
          (now < timestamp e + inject_Z (ttl e))%Q → e ∈ found)
  ∧ (∀ e, (Z.abs (ttl e) < 2 ^ 53)%Z →
          (timestamp e + inject_Z (ttl e) <= now)%Q → e ∉ found)
  ∧ (∀ e, (Z.abs (ttl e) < 2 ^ 53)%Z → e ∈ found →
          e ∈ valid_records now key (cache w))
  ∧ (found ≠ [] →
       events r = [Acquire; Touch Filter; Log (CacheHit qn qt)]
                  ++ match build_dns_response tid data found qn qt with
                     | Some response => [SendClient response addr]
                     | None => []
                     end
                  ++ [Release])
  ∧ (found = [] →
       res r = Ok false
       ∧ cache (world r) !! key = None
       ∧ events r = [Acquire; Touch Filter; Touch Evict; Release]).
Proof.
  intros stored found r.
  assert (∀ e, e ∈ found
               ↔ e ∈ stored ∧ (fsub64 now (timestamp e) < inject_Z (ttl e))%Q)
    as Hfound.
  { intros e. unfold found, valid_records_by. fold stored.
    by rewrite !list_elem_of_In, filter_In, is_live_by_spec. }
  assert (∀ e, (Z.abs (ttl e) < 2 ^ 53)%Z → e ∈ found →
               (now - timestamp e < inject_Z (ttl e))%Q) as Hexact.
  { intros e Httl [_ Htest]%Hfound.
    apply Qnot_le_lt. intros Hle.
    pose proof (fsub64_respects_integers now (timestamp e) (ttl e) Httl Hle).
    lra. }
  pose proof (check_cache_by_run fsub64 build_dns_response data addr qn qt tid
                key now w) as Hr.
  fold r found in Hr.
  split; [exact Hfound |]. split; [|split; [|split; [|split]]].
  - intros e He Hsub _ Hlt. apply Hfound. split; [done |].
    rewrite Hsub. lra.
  - intros e Httl Hle Hin. pose proof (Hexact e Httl Hin). lra.
  - intros e Httl Hin. apply elem_of_live_records. split.
    + by apply Hfound in Hin as [? _].
    + by apply Hexact.
  - intros Hne. rewrite Hr. destruct found as [|e es]; [done |].
    by destruct (build_dns_response tid data (e :: es) qn qt).
  - intros Hnil. rewrite Hr, Hnil. simpl. split; [done |]. split; [|done].
    rewrite evict_delete. apply lookup_delete_eq.
Qed.

(** C10. A cache hit leaves the dictionary as it was, for the check and for
    the whole request: entries of the key that have expired stay, nothing is
    inserted and no timestamp changes.  The one change the check can make
    is the removal of the whole key, when none of its entries is live. *)
Theorem cache_hit_leaves_cache_unchanged
    (clock : nat → Q)
    (parse_dns_response : bytes → option (string * Z * Z))
    (extract_records : bytes → option (list ResourceRecord))
    (build_dns_response : Z → bytes → list Entry → string → Z → option bytes)
    (data : bytes) (addr : Addr) (net : Upstream) (w : World)
    (qn : string) (qt tid : Z) :
  parse_dns_response data = Some (qn, qt, tid) →
  let now := clock (ticks w) in
  let key := cache_key qt qn in
  let found := valid_records now key (cache w) in
  let checked :=
    check_cache build_dns_response data addr qn qt tid key now (tick w) in
  let r := handle_request clock parse_dns_response extract_records
             build_dns_response data addr net w in
  (found ≠ [] → cache (world checked) = cache w ∧ cache (world r) = cache w)
  ∧ (found = [] → cache (world checked) = delete key (cache w)).
Proof.
  intros Hparse now key found checked r. split.
  - intros Hne. subst checked r. rewrite check_cache_run.
    destruct found as [|e es] eqn:Hfound; [done |]. subst found.
    change (cache (tick w)) with (cache w). fold now key. rewrite Hfound.
    destruct (build_dns_response tid data (e :: es) qn qt) eqn:Hbuild.
    + by erewrite handle_request_hit.
    + by erewrite handle_request_hit_unbuilt.
  - intros Hnil. subst checked. rewrite check_cache_run.
    change (cache (tick w)) with (cache w). fold found. rewrite Hnil. simpl.
    apply evict_delete.
Qed.

(** ** Sweep, load and persist *)

Lemma live_part_entries now (d : Cache) k rs :
  live_part now d !! k = Some rs →
  rs ≠ [] ∧ ∃ old, d !! k = Some old ∧ rs = live_records now old.
Proof.
  rewrite lookup_live_part. destruct (d !! k) as [old|]; [|done]. simpl.
  intros [<- Hne]%keep_Some. eauto.
Qed.


Lemma load_cache_handled (clock : nat → Q) (w : World) :
  let T := clock (ticks w) in
  let r := load_cache clock w in
  (cache_file w = Missing →
     res r = Ok tt ∧ cache (world r) = ∅
     ∧ events r = [OpenRead CACHE_FILE; Log InfoNoCache; Touch Clear])
  ∧ (cache_file w = Unparseable →
     res r = Ok tt ∧ cache (world r) = ∅
     ∧ events r = [OpenRead CACHE_FILE; Log WarnCorrupt; Touch Clear])
  ∧ (∀ raw, cache_file w = Snapshot raw →
     res r = Ok tt
     ∧ (∀ k, cache (world r) !! k = raw !! k ≫= keep T)
     ∧ (∀ k rs e, cache (world r) !! k = Some rs → e ∈ rs →
          e ∈ default [] (raw !! k)
          ∧ ¬ (timestamp e + inject_Z (ttl e) <= T)%Q)
     ∧ (∀ k old e, raw !! k = Some old → e ∈ old →
          (T < timestamp e + inject_Z (ttl e))%Q →
          e ∈ default [] (cache (world r) !! k))).
Proof.
  intros T r. subst r. split; [|split].
  - intros H. by rewrite load_cache_missing.
  - intros H. by rewrite load_cache_unparseable.
  - intros raw H. rewrite (load_cache_snapshot _ _ _ H). simpl. fold T.
    split; [done |]. split; [|split].
    + intros k. apply lookup_live_part.
    + intros k rs e [_ (old & -> & ->)]%live_part_entries
        [He Hlive%live_window]%elem_of_live_records.
      split; [done | lra].
    + intros k old e Hk He Hlt. rewrite lookup_live_part, Hk. simpl.
      assert (e ∈ live_records T old) as Hin.
      { apply elem_of_live_records. split; [done |]. by apply live_window. }
      unfold keep. destruct (live_records T old); [|done].
      by apply elem_of_nil in Hin.
Qed.


(** ** Insertion *)

Lemma entries_for_replicate clock rec : ∀ n m,
  entries_for clock m (cache_key (rr_type rec) (rr_name rec)) (replicate n rec)
  = (λ i, new_entry rec (clock (m + i)%nat)) <$> seq 0 n.
Proof.
  induction n as [|n IH]; intros m; [reflexivity |].
  simpl. rewrite decide_True by done. simpl. rewrite Nat.add_0_r. f_equal.
  rewrite IH, <- (fmap_S_seq 0 n), <- list_fmap_compose.
  apply list_fmap_ext. intros _ i _. simpl. do 2 f_equal. lia.
Qed.

(** C9. Storing a record appends one entry to the list of the key
    ["<type>:<name>"] made of the record's own type and name, starting from
    the empty list when the key is new, and touches no other key.  The
    entry carries the record's name, type, data and ttl and, as timestamp,
    the clock as read at that moment.  A key stands for one type and one
    name only.  Nothing is merged: storing the same record [n] times in a
    row appends [n] entries to the list of its key, one for each reading of
    the clock. *)
Theorem store_record_appends (clock : nat → Q) (rec : ResourceRecord)
    (w : World) :
  let k := pretty (rr_type rec) +:+ ":" +:+ rr_name rec in
  let old := default [] (cache w !! k) in
  let entry_at (t : Q) :=
    {| name := rr_name rec; type := rr_type rec; data := rr_data rec;
       ttl := rr_ttl rec; timestamp := t |} in
  let r := store_record clock rec w in
  res r = Ok tt
  ∧ cache (world r) !! k = Some (old ++ [entry_at (clock (ticks w))])
  ∧ (cache w !! k = None →
     cache (world r) !! k = Some [entry_at (clock (ticks w))])
  ∧ (∀ k', k' ≠ k → cache (world r) !! k' = cache w !! k')
  ∧ (∀ rec', pretty (rr_type rec') +:+ ":" +:+ rr_name rec' = k →
             rr_type rec' = rr_type rec ∧ rr_name rec' = rr_name rec)
  ∧ (∀ n,
       let rn := for_each (replicate n rec) (store_record clock) w in
       default [] (cache (world rn) !! k)
       = old ++ ((λ i, entry_at (clock (ticks w + i)%nat)) <$> seq 0 n)).
Proof.
  intros k old entry_at r.
  assert (k = cache_key (rr_type rec) (rr_name rec)) as Hk by reflexivity.
  assert (∀ t, entry_at t = new_entry rec t) as Hentry by reflexivity.
  split; [done |]. split; [|split; [|split; [|split]]].
  - rewrite Hentry, Hk. apply lookup_insert_key.
  - intros Hnone. rewrite Hentry. subst r old. simpl.
    unfold insert, append_entry. rewrite <- Hk, lookup_insert_eq.
    by rewrite Hnone.
  - intros k' Hne. apply lookup_insert_other. by rewrite <- Hk.
  - intros rec' Hrec'. by apply cache_key_pair.
  - intros n rn. subst rn. rewrite store_records_run. simpl.
    rewrite lookup_store_all, Hk, entries_for_replicate, <- Hk. fold old.
    destruct n as [|n]; [by rewrite app_nil_r |]. reflexivity.
Qed.


(** ** The request handler *)

Lemma serve_cons clock parse_dns_response extract_records build_dns_response
    data addr net rest w :
  let handled := handle_request clock parse_dns_response extract_records
                   build_dns_response data addr net w in
  let later := serve clock parse_dns_response extract_records
                 build_dns_response rest (world handled) in
  serve clock parse_dns_response extract_records build_dns_response
    ((data, addr, net) :: rest) w =
    {| res := res later; world := world later;
       events := events handled ++ events later |}.
Proof.
  intros handled later. unfold serve. simpl.
  unfold mbind at 1, M_bind, bind. fold handled.
  assert (res handled = Ok tt) as -> by apply handle_request_returns.
  reflexivity.
Qed.

(** C5. A datagram the decoder rejects: the handler ends normally having
    only written a log line; it takes no lock, sends nothing and leaves the
    world, the dictionary with it, as it was, and the loop goes on with the
    datagrams that follow as if the bad one had not come. *)
Theorem undecodable_packet_is_dropped
    (clock : nat → Q)
    (parse_dns_response : bytes → option (string * Z * Z))
    (extract_records : bytes → option (list ResourceRecord))
    (build_dns_response : Z → bytes → list Entry → string → Z → option bytes)
    (data : bytes) (addr : Addr) (net : Upstream)
    (rest : list (bytes * Addr * Upstream)) (w : World) :
  parse_dns_response data = None →
  let r := handle_request clock parse_dns_response extract_records
             build_dns_response data addr net w in
  let serve := serve clock parse_dns_response extract_records
                 build_dns_response in
  res r = Ok tt
  ∧ world r = w
  ∧ events r = [Log (ErrorLine CodecError data)]
  ∧ res (serve ((data, addr, net) :: rest) w) = res (serve rest w)
  ∧ world (serve ((data, addr, net) :: rest) w) = world (serve rest w)
  ∧ events (serve ((data, addr, net) :: rest) w)
    = Log (ErrorLine CodecError data) :: events (serve rest w).
Proof.
  intros Hparse r serve0. subst r serve0.
  rewrite !serve_cons.
  rewrite (handle_request_undecodable _ _ _ _ _ _ _ _ Hparse). simpl.
  repeat split.
Qed.

Lemma entries_for_lookup clock records : ∀ n i rec,
  records !! i = Some rec →
  new_entry rec (clock (n + i)%nat)
    ∈ entries_for clock n (cache_key (rr_type rec) (rr_name rec)) records.
Proof.
  induction records as [|r0 rest IH]; intros n i rec Hi; [done |].
  destruct i as [|i]; simpl in *.
  - injection Hi as ->. rewrite decide_True by done.
    rewrite Nat.add_0_r. by left.
  - apply elem_of_app. right. rewrite Nat.add_succ_r.
    by apply (IH (S n)).
Qed.

Lemma entries_for_origin clock records : ∀ n k e,
  e ∈ entries_for clock n k records →
  ∃ i rec, records !! i = Some rec
           ∧ k = cache_key (rr_type rec) (rr_name rec)
           ∧ e = new_entry rec (clock (n + i)%nat).
Proof.
  induction records as [|r0 rest IH]; intros n k e He; simpl in He.
  - by apply elem_of_nil in He.
  - apply elem_of_app in He as [He|He].
    + case_decide as Hk; [|by apply elem_of_nil in He].
      apply list_elem_of_singleton in He as ->.
      exists 0%nat, r0. by rewrite Nat.add_0_r.
    + destruct (IH (S n) k e He) as (i & rec & Hi & -> & ->).
      exists (S i), rec. split; [done |]. split; [done |].
      by rewrite Nat.add_succ_r.
Qed.

(** C6. On a miss the handler sends the query bytes as they came to the
    upstream resolver (8.8.8.8, port 53), whatever happens next.  When the
    upstream answers, the bytes received are sent to the client as they are,
    and only then are the records extracted from them stored, under the
    lock: for each record an entry with the record's name, type, data and
    ttl, stamped with the clock as read for it, is appended to the list of
    the key ["<type>:<name>"] made of the record's own type and name, and
    the lists gain nothing else. *)
Theorem miss_forwards_relays_then_stores
    (clock : nat → Q)
    (parse_dns_response : bytes → option (string * Z * Z))
    (extract_records : bytes → option (list ResourceRecord))
    (build_dns_response : Z → bytes → list Entry → string → Z → option bytes)
    (data : bytes) (addr : Addr) (net : Upstream) (w : World)
    (qn : string) (qt tid : Z) :
  parse_dns_response data = Some (qn, qt, tid) →
  valid_records (clock (ticks w)) (pretty qt +:+ ":" +:+ qn) (cache w) = [] →
  let before := delete (pretty qt +:+ ":" +:+ qn) (cache w) in
  let r := handle_request clock parse_dns_response extract_records
             build_dns_response data addr net w in
  let sent_upstream :=
    [Acquire; Touch Filter; Touch Evict; Release;
     Log (CacheMiss qn qt); CreateSocket; SetTimeout 5;
     SendUpstream data (UPSTREAM_DNS, 53%Z)] in
  let stored (rec : ResourceRecord) (i : nat) :=
    {| name := rr_name rec; type := rr_type rec; data := rr_data rec;
       ttl := rr_ttl rec; timestamp := clock (S (ticks w) + i)%nat |} in
  res r = Ok tt
  ∧ (∃ then_, events r = sent_upstream ++ then_)
  ∧ (∀ response, net = Replies response →
       ∃ then_, events r = sent_upstream
                           ++ [RecvUpstream BUFFER_SIZE; SendClient response addr]
                           ++ then_)
  ∧ (∀ response records,
       net = Replies response → extract_records response = Some records →
       events r = sent_upstream
                  ++ [RecvUpstream BUFFER_SIZE; SendClient response addr; Acquire]
                  ++ (records ≫= λ _, [Touch Append])
                  ++ [Release]
       ∧ (∀ k, cache (world r) !! k =
                 match entries_for clock (S (ticks w)) k records with
                 | [] => before !! k
                 | e :: es => Some (default [] (before !! k) ++ e :: es)
                 end)
       ∧ (∀ i rec, records !! i = Some rec →
            stored rec i
              ∈ default [] (cache (world r)
                              !! (pretty (rr_type rec) +:+ ":" +:+ rr_name rec)))
       ∧ (∀ k e, e ∈ entries_for clock (S (ticks w)) k records →
            ∃ i rec, records !! i = Some rec
                     ∧ k = pretty (rr_type rec) +:+ ":" +:+ rr_name rec
                     ∧ e = stored rec i)).
Proof.
  intros Hparse Hvalid before r sent_upstream stored. subst r.
  rewrite (handle_request_miss _ _ _ _ _ _ _ _ _ _ _ Hparse Hvalid).
  fold (miss_prefix data qn qt) in sent_upstream. subst sent_upstream.
  assert (before = delete (cache_key qt qn) (cache w)) as Hbefore
    by reflexivity.
  assert (∀ rec i, stored rec i = new_entry rec (clock (S (ticks w) + i)%nat))
    as Hstored by reflexivity.
  split; [|split; [|split]].
  - destruct net as [| | |response]; [done .. |].
    by destruct (extract_records response).
  - destruct net as [| | |response]; [by eexists .. |].
    destruct (extract_records response); by eexists.
  - intros response ->.
    destruct (extract_records response); by eexists.
  - intros response records -> ->. simpl. rewrite evict_delete, <- Hbefore.
    split; [done |].
    assert (∀ k, store_all clock (S (ticks w)) records before !! k =
                 match entries_for clock (S (ticks w)) k records with
                 | [] => before !! k
                 | e :: es => Some (default [] (before !! k) ++ e :: es)
                 end) as Hlook by (intros k; apply lookup_store_all).
    split; [exact Hlook |]. split.
    + intros i rec Hi. rewrite Hstored.
      change (pretty (rr_type rec) +:+ ":" +:+ rr_name rec)
        with (cache_key (rr_type rec) (rr_name rec)).
      rewrite Hlook.
      pose proof (entries_for_lookup clock records (S (ticks w)) i rec Hi)
        as Hin.
      destruct (entries_for clock (S (ticks w)) _ records) as [|e es].
      * by apply elem_of_nil in Hin.
      * simpl. apply elem_of_app. by right.
    + intros k e He.
      destruct (entries_for_origin clock records _ k e He)
        as (i & rec & Hi & -> & ->).
      by exists i, rec.
Qed.

(** C7 (as amended). A miss whose upstream exchange fails, the send failing
    or the receive timing out or failing under the 5-second timeout set
    before it: the handler ends normally with an error line, having sent the
    query upstream once and nothing to the client, and none of that under
    the lock.  No record is stored: the dictionary is left as the cache
    check left it, that is without the key asked for, whose entries had all
    expired; it is the dictionary as it was when the key was not in it. *)
Theorem upstream_failure_aborts_request
    (clock : nat → Q)
    (parse_dns_response : bytes → option (string * Z * Z))
    (extract_records : bytes → option (list ResourceRecord))
    (build_dns_response : Z → bytes → list Entry → string → Z → option bytes)
    (data : bytes) (addr : Addr) (net : Upstream) (w : World)
    (qn : string) (qt tid : Z) :
  parse_dns_response data = Some (qn, qt, tid) →
  valid_records (clock (ticks w)) (cache_key qt qn) (cache w) = [] →
  (∀ response, net ≠ Replies response) →
  let key := cache_key qt qn in
  let r := handle_request clock parse_dns_response extract_records
             build_dns_response data addr net w in
  res r = Ok tt
  ∧ (∀ payload dst, SendClient payload dst ∉ events r)
  ∧ List.filter is_upstream_send (events r)
    = [SendUpstream data (UPSTREAM_DNS, 53%Z)]
  ∧ (events r = miss_prefix data qn qt ++ [Log (ErrorLine SocketError data)]
     ∨ ∃ e, events r = miss_prefix data qn qt
                       ++ [RecvUpstream BUFFER_SIZE; Log (ErrorLine e data)])
  ∧ SetTimeout 5 ∈ miss_prefix data qn qt
  ∧ io_under_lock false (events r) = []
  ∧ lock_after false (events r) = Some false
  ∧ (∀ a, Touch a ∈ events r → a = Filter ∨ a = Evict)
  ∧ cache (world r) = delete key (cache w)
  ∧ (cache w !! key = None → cache (world r) = cache w).
Proof.
  intros Hparse Hvalid Hfail key r. subst r.
  rewrite (handle_request_miss _ _ _ _ _ _ _ _ _ _ _ Hparse Hvalid).
  assert (∀ c : Cache, c !! key = None → delete key c = c) as Hid
    by (intros c; apply delete_id).
  assert (∀ (a : access) (tail : list Event),
            Touch a ∈ miss_prefix data qn qt ++ tail →
            (∀ b, Touch b ∉ tail) → a = Filter ∨ a = Evict) as Htouch.
  { intros a tail [Hin|Hin]%elem_of_app Htail; [|by apply Htail in Hin].
    unfold miss_prefix in Hin.
    repeat (apply elem_of_cons in Hin as [Hin|Hin];
            [first [discriminate Hin | injection Hin as ->; eauto] |]).
    by apply elem_of_nil in Hin. }
  destruct net as [| | |response]; [| | |by destruct (Hfail response)];
    simpl; rewrite evict_delete; fold key;
    (split; [done |]); (split; [intros payload dst; absent |]);
    (split; [done |]); (split; [eauto |]);
    (split; [do 6 right; left |]); (split; [done |]); (split; [done |]);
    (split; [|split; [done | apply Hid]]);
    intros a Ha;
    (eapply (Htouch a); [exact Ha | intros b; absent]).
Qed.

(** ** Lock scopes *)

Lemma scan_appends (records : list ResourceRecord) (rest : list Event) :
  lock_after true ((records ≫= λ _, [Touch Append]) ++ rest)
  = lock_after true rest
  ∧ io_under_lock true ((records ≫= λ _, [Touch Append]) ++ rest)
    = io_under_lock true rest
  ∧ unlocked_touches true
      ((records ≫= λ _, [Touch Append]) ++ rest)
    = unlocked_touches true rest.
Proof. induction records as [|rec records IH]; [done | exact IH]. Qed.

(** C1 (as amended). In the event list of each operation (a request, a
    save, a load, a turn of the sweep) the lock is taken and released in
    turn and is free at the end; every filter, eviction, append, install and
    dump of the dictionary is made with the lock held, the only touches made
    without it being the entry count read for a log line and the reset to
    the empty dictionary when the snapshot file is missing or unparseable.
    Load performs no I/O under the lock, and neither does a request that
    misses: the upstream send and receive and the relay to the client come
    after the release, the sweep releases the lock before it saves.  But
    [save_cache] writes the snapshot file with the lock held, and a cache
    hit sends its answer to the client with the lock held. *)
Theorem lock_scopes_of_cache_operations
    (clock : nat → Q)
    (parse_dns_response : bytes → option (string * Z * Z))
    (extract_records : bytes → option (list ResourceRecord))
    (build_dns_response : Z → bytes → list Entry → string → Z → option bytes)
    (data : bytes) (addr : Addr) (net : Upstream) (w : World) :
  let h := events (handle_request clock parse_dns_response extract_records
                     build_dns_response data addr net w) in
  let s := events (save_cache w) in
  let l := events (load_cache clock w) in
  let c := events (cleanup_round clock w) in
  (lock_after false h = Some false ∧ lock_after false s = Some false
   ∧ lock_after false l = Some false ∧ lock_after false c = Some false)
  ∧ (unlocked_touches false h = [] ∧ unlocked_touches false s = []
     ∧ unlocked_touches false c = [Len]
     ∧ (unlocked_touches false l = [Len] ∨ unlocked_touches false l = [Clear]))
  ∧ io_under_lock false l = []
  ∧ io_under_lock false s = [WriteFile CACHE_FILE (cache w)]
  ∧ io_under_lock false c
    = [WriteFile CACHE_FILE (live_part (clock (ticks w)) (cache w))]
  ∧ io_under_lock false h =
      match parse_dns_response data with
      | Some (qn, qt, tid) =>
          match valid_records (clock (ticks w)) (cache_key qt qn) (cache w) with
          | [] => []
          | r :: rs =>
              match build_dns_response tid data (r :: rs) qn qt with
              | Some response => [SendClient response addr]
              | None => []
              end
          end
      | None => []
      end.
Proof.
  intros h s l c.
  assert (lock_after false l = Some false
          ∧ (unlocked_touches false l = [Len] ∨ unlocked_touches false l = [Clear])
          ∧ io_under_lock false l = []) as (Hl1 & Hl2 & Hl3).
  { subst l. destruct (cache_file w) as [| |raw] eqn:Hfile.
    - rewrite load_cache_missing by done. simpl. eauto.
    - rewrite load_cache_unparseable by done. simpl. eauto.
    - erewrite load_cache_snapshot by done. simpl. eauto. }
  assert (lock_after false c = Some false ∧ unlocked_touches false c = [Len]
          ∧ io_under_lock false c
            = [WriteFile CACHE_FILE (live_part (clock (ticks w)) (cache w))])
    as (Hc1 & Hc2 & Hc3).
  { subst c. rewrite cleanup_round_run. done. }
  assert (lock_after false h = Some false ∧ unlocked_touches false h = []
          ∧ io_under_lock false h =
              match parse_dns_response data with
              | Some (qn, qt, tid) =>
                  match valid_records (clock (ticks w)) (cache_key qt qn)
                          (cache w) with
                  | [] => []
                  | r :: rs =>
                      match build_dns_response tid data (r :: rs) qn qt with
                      | Some response => [SendClient response addr]
                      | None => []
                      end
                  end
              | None => []
              end) as (Hh1 & Hh2 & Hh3).
  { subst h.
    destruct (parse_dns_response data) as [[[qn qt] tid]|] eqn:Hparse.
    - destruct (valid_records (clock (ticks w)) (cache_key qt qn) (cache w))
        as [|r rs] eqn:Hvalid.
      + rewrite (handle_request_miss _ _ _ _ _ _ _ _ _ _ _ Hparse Hvalid).
        destruct net as [| | |response]; [done .. |].
        destruct (extract_records response) as [records|]; [|done].
        simpl. destruct (scan_appends records [Release]) as (-> & -> & ->).
        done.
      + destruct (build_dns_response tid data (r :: rs) qn qt) eqn:Hbuild.
        * by erewrite handle_request_hit.
        * by erewrite handle_request_hit_unbuilt.
    - by rewrite handle_request_undecodable. }
  done.
Qed.

(** * The sample request, run *)

Module Scenario.

Import Sample.

(** Scenario A: empty cache, the upstream answers; the answer is relayed
    and one entry appears under the key of the A record. *)
Example miss_then_store :
  let r := handle (Replies reply) query empty_world in
  events r
  = [Acquire; Touch Filter; Touch Evict; Release;
     Log (CacheMiss "example.com" 1); CreateSocket; SetTimeout 5;
     SendUpstream query ("8.8.8.8", 53%Z); RecvUpstream 512;
     SendClient reply client; Acquire; Touch Append; Release]
  ∧ cache (world r) = {[ key := [new_entry a_record 1001] ]}.
Proof. vm_compute. split; reflexivity. Qed.

(** Scenario B: the entry is live; the answer is built from it. *)
Example hit_from_cache :
  events (handle TimesOut query warm_world)
  = [Acquire; Touch Filter; Log (CacheHit "example.com" 1);
     SendClient [x12; x34; x81; x80; x01] client; Release].
Proof. vm_compute. reflexivity. Qed.

(** Scenario C: the entry has expired; the key is removed and the query
    goes upstream. *)
Example expired_is_a_miss :
  let r := handle (Replies reply) query stale_world in
  cache (world r) = {[ key := [new_entry a_record 1001] ]}.
Proof. vm_compute. reflexivity. Qed.

End Scenario.

(** * Where the code departs from its specification *)

(** C1, counterexample. Saving writes the snapshot file between the
    acquisition and the release of the lock, and a cache hit sends its answer
    to the client between them. *)
Lemma lock_spans_io_cex :
  ¬ lock_never_spans_io (events (save_cache Sample.warm_world))
  ∧ ¬ lock_never_spans_io
        (events (handle_request Sample.clock decodeQuery Sample.extract
                   Sample.build Sample.query Sample.client TimesOut
                   Sample.warm_world)).
Proof. split; intros H; vm_compute in H; discriminate H. Qed.

(** The machine's own binary64 arithmetic at that input: the float nearest
    to 100.00000000000001 is 7036874417766401 * 2^-46, the timestamp of the
    sample entry, and subtracting it from 1000 gives 7916483719987200 * 2^-43,
    which is 900 and is what [fsub64] gives. *)
Example binary64_at_the_sample :
  Prim2SF 0x1.9000000000001p+6%float
  = S754_finite false 7036874417766401 (-46)
  ∧ Prim2SF (PrimFloat.sub 1000%float 0x1.9000000000001p+6%float)
    = S754_finite false 7916483719987200 (-43)
  ∧ (inject_Z 7036874417766401 * pow2 (-46)
     == timestamp Sample.rounding_entry)%Q
  ∧ (inject_Z 7916483719987200 * pow2 (-43)
     == fsub64 1000 (timestamp Sample.rounding_entry))%Q
  ∧ (fsub64 1000 (timestamp Sample.rounding_entry) == 900)%Q.
Proof. vm_compute. repeat split. Qed.

(** C2, counterexample. An entry stored at [T] = 100.00000000000001 with
    ttl [D] = 900 and looked up at [T'] = 1000: [T <= T' < T + D], yet the
    difference [T' - T] rounds to 900 in binary64, the test of the code
    fails, nothing is found and the key is evicted. *)
Lemma cache_check_window_cex :
  let e := Sample.rounding_entry in
  let w := Sample.rounding_world in
  ¬ (e ∈ default [] (cache w !! Sample.key) →
     (timestamp e <= 1000)%Q →
     (1000 < timestamp e + inject_Z (ttl e))%Q →
     e ∈ valid_records_by fsub64 1000 Sample.key (cache w)
     ∧ cache (world (check_cache_by fsub64 Sample.build Sample.query
                       Sample.client "example.com" 1 4660 Sample.key 1000 w))
       !! Sample.key ≠ None).
Proof.
  intros e w H.
  assert (valid_records_by fsub64 1000 Sample.key (cache w) = []) as Hnone
    by (vm_compute; reflexivity).
  destruct H as [Hin _].
  - replace (default [] (cache w !! Sample.key)) with [e]
      by (vm_compute; reflexivity).
    left.
  - vm_compute. discriminate.
  - vm_compute. reflexivity.
  - rewrite Hnone in Hin. by apply elem_of_nil in Hin.
Qed.


(** C7, counterexample. The only entry of the key asked for has expired and
    the upstream times out: the request leaves the dictionary without the
    key, not as it was. *)
Lemma upstream_timeout_cex :
  cache (world (handle_request Sample.clock decodeQuery Sample.extract
                  Sample.build Sample.query Sample.client TimesOut
                  Sample.stale_world))
  ≠ cache Sample.stale_world.
Proof. vm_compute. intros H. discriminate H. Qed.

(** * The theorems at the sample inputs *)

Lemma lock_scopes_of_cache_operations_witness :
  lock_after false
    (events (handle_request Sample.clock decodeQuery Sample.extract
               Sample.build Sample.query Sample.client TimesOut
               Sample.warm_world))
  = Some false.
Proof.
  destruct (lock_scopes_of_cache_operations Sample.clock decodeQuery
              Sample.extract Sample.build Sample.query Sample.client TimesOut
              Sample.warm_world) as ((H & _) & _).
  exact H.
Defined.

Lemma cache_check_under_binary64_witness :
  valid_records_by fsub64 1000 Sample.key (cache Sample.rounding_world) = []
  ∧ cache (world (check_cache_by fsub64 Sample.build Sample.query
                    Sample.client "example.com" 1 4660 Sample.key 1000
                    Sample.rounding_world))
    !! Sample.key = None
  ∧ Sample.fresh_entry
    ∈ valid_records_by fsub64 1000 Sample.key (cache Sample.mixed_world).
Proof.
  assert (valid_records_by fsub64 1000 Sample.key
            (cache Sample.rounding_world) = []) as Hnone
    by (vm_compute; reflexivity).
  split; [exact Hnone |]. split.
  - destruct (cache_check_under_binary64 Sample.build Sample.query
                Sample.client "example.com" 1 4660 Sample.key 1000
                Sample.rounding_world) as (_ & _ & _ & _ & _ & H).
    by destruct (H Hnone) as (_ & Hkey & _).
  - destruct (cache_check_under_binary64 Sample.build Sample.query
                Sample.client "example.com" 1 4660 Sample.key 1000
                Sample.mixed_world) as (_ & Hin & _).
    apply Hin.
    + replace (default [] (cache Sample.mixed_world !! Sample.key))
        with [Sample.stale_entry; Sample.fresh_entry]
        by (vm_compute; reflexivity).
      right; left.
    + vm_compute. reflexivity.
    + vm_compute. discriminate.
    + vm_compute. reflexivity.
Defined.



Lemma undecodable_packet_is_dropped_witness :
  decodeQuery Sample.short_packet = None
  ∧ events (handle_request Sample.clock decodeQuery Sample.extract
              Sample.build Sample.short_packet Sample.client TimesOut
              Sample.warm_world)
    = [Log (ErrorLine CodecError Sample.short_packet)].
Proof.
  assert (decodeQuery Sample.short_packet = None) as Hparse
    by (vm_compute; reflexivity).
  split; [exact Hparse |].
  apply (undecodable_packet_is_dropped Sample.clock decodeQuery Sample.extract
           Sample.build Sample.short_packet Sample.client TimesOut []
           Sample.warm_world Hparse).
Defined.

Lemma miss_forwards_relays_then_stores_witness :
  decodeQuery Sample.query = Some ("example.com", 1%Z, 4660%Z)
  ∧ valid_records (Sample.clock 0) "1:example.com"
      (cache Sample.empty_world) = []
  ∧ {| name := "example.com"; type := 1; data := "1.2.3.4"; ttl := 300;
       timestamp := Sample.clock 1 |}
    ∈ default []
        (cache (world (handle_request Sample.clock decodeQuery Sample.extract
                         Sample.build Sample.query Sample.client
                         (Replies Sample.reply) Sample.empty_world))
         !! "1:example.com").
Proof.
  assert (decodeQuery Sample.query = Some ("example.com", 1%Z, 4660%Z))
    as Hparse by (vm_compute; reflexivity).
  assert (valid_records (Sample.clock 0) "1:example.com"
            (cache Sample.empty_world) = [])
    as Hvalid by (vm_compute; reflexivity).
  split; [exact Hparse |]. split; [exact Hvalid |].
  destruct (miss_forwards_relays_then_stores Sample.clock decodeQuery
              Sample.extract Sample.build Sample.query Sample.client
              (Replies Sample.reply) Sample.empty_world "example.com" 1 4660
              Hparse Hvalid) as (_ & _ & _ & H).
  destruct (H Sample.reply [Sample.a_record] eq_refl eq_refl)
    as (_ & _ & Hin & _).
  apply (Hin 0%nat Sample.a_record). reflexivity.
Defined.

Lemma upstream_failure_aborts_request_witness :
  decodeQuery Sample.query = Some ("example.com", 1%Z, 4660%Z)
  ∧ valid_records (Sample.clock 0) (cache_key 1 "example.com")
      (cache Sample.stale_world) = []
  ∧ (∀ response, TimesOut ≠ Replies response)
  ∧ cache (world (handle_request Sample.clock decodeQuery Sample.extract
                    Sample.build Sample.query Sample.client TimesOut
                    Sample.stale_world))
    = delete (cache_key 1 "example.com") (cache Sample.stale_world).
Proof.
  assert (decodeQuery Sample.query = Some ("example.com", 1%Z, 4660%Z))
    as Hparse by (vm_compute; reflexivity).
  assert (valid_records (Sample.clock 0) (cache_key 1 "example.com")
            (cache Sample.stale_world) = [])
    as Hvalid by (vm_compute; reflexivity).
  assert (∀ response, TimesOut ≠ Replies response) as Hfail
    by (intros response; discriminate).
  split; [exact Hparse |]. split; [exact Hvalid |]. split; [exact Hfail |].
  destruct (upstream_failure_aborts_request Sample.clock decodeQuery
              Sample.extract Sample.build Sample.query Sample.client TimesOut
              Sample.stale_world "example.com" 1 4660 Hparse Hvalid Hfail)
    as (_ & _ & _ & _ & _ & _ & _ & _ & H & _).
  exact H.
Defined.


Lemma store_record_appends_witness :
  cache (world (store_record Sample.clock Sample.a_record Sample.warm_world))
    !! "1:example.com"
  = Some (default [] (cache Sample.warm_world !! "1:example.com")
          ++ [{| name := "example.com"; type := 1; data := "1.2.3.4";
                 ttl := 300; timestamp := Sample.clock 0 |}]).
Proof.
  destruct (store_record_appends Sample.clock Sample.a_record Sample.warm_world)
    as (_ & H & _).
  exact H.
Defined.

Lemma cache_hit_leaves_cache_unchanged_witness :
  decodeQuery Sample.query = Some ("example.com", 1%Z, 4660%Z)
  ∧ cache (world (handle_request Sample.clock decodeQuery Sample.extract
                    Sample.build Sample.query Sample.client TimesOut
                    Sample.mixed_world))
    = cache Sample.mixed_world.
Proof.
  assert (decodeQuery Sample.query = Some ("example.com", 1%Z, 4660%Z))
    as Hparse by (vm_compute; reflexivity).
  split; [exact Hparse |].
  destruct (cache_hit_leaves_cache_unchanged Sample.clock decodeQuery
              Sample.extract Sample.build Sample.query Sample.client TimesOut
              Sample.mixed_world "example.com" 1 4660 Hparse) as (H & _).
  apply H. vm_compute. discriminate.
Defined.

(** * Further properties *)

(** ** Expiry is monotone in time *)

Lemma is_live_earlier T1 T2 r :
  (T1 <= T2)%Q → is_live T2 r = true → is_live T1 r = true.
Proof.
  intros Hle H2. apply is_live_spec. apply is_live_spec in H2.
  unfold live in *. lra.
Qed.

Lemma live_records_later T1 T2 rs :
  (T1 <= T2)%Q →
  live_records T2 (live_records T1 rs) = live_records T2 rs.
Proof.
  intros Hle. unfold live_records.
  induction rs as [|r rs IH]; [reflexivity |]. simpl.
  destruct (is_live T1 r) eqn:H1; simpl.
  - by rewrite IH.
  - destruct (is_live T2 r) eqn:H2; [|exact IH].
    apply (is_live_earlier T1 T2 r Hle) in H2. congruence.
Qed.

Lemma live_records_app T rs1 rs2 :
  live_records T (rs1 ++ rs2) = live_records T rs1 ++ live_records T rs2.
Proof. unfold live_records. apply List.filter_app. Qed.

Lemma keep_later T1 T2 (o : option (list Entry)) :
  (T1 <= T2)%Q → (o ≫= keep T1) ≫= keep T2 = o ≫= keep T2.
Proof.
  intros Hle. destruct o as [rs|]; [|reflexivity]. simpl.
  assert (keep T2 rs = keep T2 (live_records T1 rs)) as ->
    by (unfold keep; by rewrite live_records_later).
  destruct (keep T1 rs) as [l|] eqn:H1; simpl.
  - apply keep_Some in H1 as [<- _]. reflexivity.
  - apply keep_None in H1. by rewrite H1.
Qed.

Lemma live_part_later T1 T2 (c : Cache) :
  (T1 <= T2)%Q → live_part T2 (live_part T1 c) = live_part T2 c.
Proof.
  intros Hle. apply map_eq. intros k.
  rewrite !lookup_live_part. by apply keep_later.
Qed.

Lemma valid_records_live_part T1 T2 key (c : Cache) :
  (T1 <= T2)%Q →
  valid_records T2 key (live_part T1 c) = valid_records T2 key c.
Proof.
  intros Hle. unfold valid_records. rewrite lookup_live_part.
  destruct (c !! key) as [rs|]; [|reflexivity]. simpl.
  rewrite <- (live_records_later T1 T2 rs Hle).
  destruct (keep T1 rs) as [l|] eqn:H1; simpl.
  - apply keep_Some in H1 as [<- _]. reflexivity.
  - apply keep_None in H1. by rewrite H1.
Qed.

Lemma valid_records_evict T1 T2 key k (c : Cache) :
  (T1 <= T2)%Q → valid_records T1 key c = [] →
  valid_records T2 k (evict key c) = valid_records T2 k c.
Proof.
  intros Hle Hnone. rewrite evict_delete. unfold valid_records in *.
  destruct (decide (k = key)) as [->|Hne].
  - rewrite lookup_delete_eq. simpl.
    by rewrite <- (live_records_later T1 T2 _ Hle), Hnone.
  - by rewrite lookup_delete_ne.
Qed.

Lemma nondecreasing_le clock :
  nondecreasing clock → ∀ n m, (n ≤ m)%nat → (clock n <= clock m)%Q.
Proof.
  intros Hmono n m Hnm. induction Hnm as [|m _ IH]; [lra |].
  specialize (Hmono m). lra.
Qed.

(** ** The world a request leaves, on every path *)

Lemma handle_request_world clock parse_dns_response extract_records
    build_dns_response data addr net w :
  world (handle_request clock parse_dns_response extract_records
           build_dns_response data addr net w) =
    match parse_dns_response data with
    | None => w
    | Some (qn, qt, tid) =>
        match valid_records (clock (ticks w)) (cache_key qt qn) (cache w) with
        | _ :: _ => tick w
        | [] =>
            let evicted := evict (cache_key qt qn) (cache w) in
            match net with
            | Replies response =>
                match extract_records response with
                | Some records =>
                    {| cache := store_all clock (S (ticks w)) records evicted;
                       cache_file := cache_file w;
                       ticks := length records + S (ticks w) |}
                | None => with_cache evicted (tick w)
                end
            | _ => with_cache evicted (tick w)
            end
        end
    end.
Proof.
  destruct (parse_dns_response data) as [[[qn qt] tid]|] eqn:Hparse.
  - destruct (valid_records (clock (ticks w)) (cache_key qt qn) (cache w))
      as [|r rs] eqn:Hvalid.
    + rewrite (handle_request_miss _ _ _ _ _ _ _ _ _ _ _ Hparse Hvalid).
      destruct net as [| | |response]; [done .. |].
      by destruct (extract_records response).
    + destruct (build_dns_response tid data (r :: rs) qn qt) eqn:Hbuild.
      * by erewrite handle_request_hit.
      * by erewrite handle_request_hit_unbuilt.
  - by rewrite handle_request_undecodable.
Qed.

Lemma cleanup_cache_S clock n w :
  let first := cleanup_round clock w in
  let later := cleanup_cache clock n (world first) in
  cleanup_cache clock (S n) w =
    {| res := res later; world := world later;
       events := events first ++ events later |}.
Proof.
  intros first later.
  change (cleanup_cache clock (S n))
    with (cleanup_round clock ≫= λ _ : unit, cleanup_cache clock n).
  unfold mbind, M_bind, bind. fold first.
  assert (res first = Ok tt) as ->
    by (subst first; by rewrite cleanup_round_run).
  reflexivity.
Qed.

(** ** Eviction cannot be observed *)

(** X1. A turn of the sweep changes nothing a cache check can see from then
    on: at any time not before the sweep's, a check of any key finds the same
    records in the swept dictionary as in the unswept one. *)
Theorem sweep_is_invisible_to_later_checks (clock : nat → Q) (w : World)
    (key : string) (T : Q) :
  (clock (ticks w) <= T)%Q →
  valid_records T key (cache (world (cleanup_round clock w)))
  = valid_records T key (cache w).
Proof.
  intros Hle. rewrite cleanup_round_run. simpl.
  by apply valid_records_live_part.
Qed.

(** X2. With a clock that never goes back, any number of turns of the sweep
    loop leaves what a single sweep at the time of the last turn leaves, and
    the snapshot file holds exactly that dictionary. *)
Theorem sweeps_compose (clock : nat → Q) (n : nat) (w : World) :
  nondecreasing clock →
  let r := cleanup_cache clock (S n) w in
  let T := clock (ticks w + n)%nat in
  res r = Ok tt
  ∧ cache (world r) = live_part T (cache w)
  ∧ cache_file (world r) = Snapshot (live_part T (cache w))
  ∧ ticks (world r) = (ticks w + S n)%nat.
Proof.
  intros Hmono. revert w. induction n as [|n IH]; intros w r T; subst r T.
  - rewrite cleanup_cache_S, cleanup_round_run. simpl.
    rewrite Nat.add_0_r. repeat split. lia.
  - rewrite cleanup_cache_S. cbv zeta.
    destruct (IH (world (cleanup_round clock w))) as (Hres & Hcache & Hfile & Hticks).
    rewrite cleanup_round_run in Hres, Hcache, Hfile, Hticks |- *.
    simpl in *. rewrite Hres, Hcache, Hfile, Hticks.
    replace (ticks w + S n)%nat with (S (ticks w + n)) by lia.
    rewrite live_part_later by (apply nondecreasing_le; [done | lia]).
    repeat split. lia.
Qed.

(** X3. A request that stores no record (an undecodable datagram, a hit, a
    miss whose upstream fails or whose answer holds no record) changes
    nothing a later cache check can see: the key it may have evicted held
    only entries that stay expired. *)
Theorem request_without_store_is_invisible
    (clock : nat → Q)
    (parse_dns_response : bytes → option (string * Z * Z))
    (extract_records : bytes → option (list ResourceRecord))
    (build_dns_response : Z → bytes → list Entry → string → Z → option bytes)
    (data : bytes) (addr : Addr) (net : Upstream) (w : World)
    (k : string) (T : Q) :
  (clock (ticks w) <= T)%Q →
  (∀ response records,
     net = Replies response → extract_records response = Some records →
     records = []) →
  valid_records T k
    (cache (world (handle_request clock parse_dns_response extract_records
                     build_dns_response data addr net w)))
  = valid_records T k (cache w).
Proof.
  intros Hle Hnone. rewrite handle_request_world.
  destruct (parse_dns_response data) as [[[qn qt] tid]|]; [|done].
  destruct (valid_records (clock (ticks w)) (cache_key qt qn) (cache w))
    as [|r rs] eqn:Hvalid; [|done].
  assert (valid_records T k (evict (cache_key qt qn) (cache w))
          = valid_records T k (cache w)) as Hevict
    by (by apply (valid_records_evict (clock (ticks w)))).
  destruct net as [| | |response]; try exact Hevict.
  destruct (extract_records response) as [records|] eqn:Hextract;
    [|exact Hevict].
  rewrite (Hnone response records eq_refl Hextract). exact Hevict.
Qed.

(** X4. After a miss that stores the records of the upstream's answer, a
    cache check of any key at any later time finds what it would have found
    before the request, followed by the entries just stored under that key
    that are live at that time. *)
Theorem later_checks_after_store
    (clock : nat → Q)
    (parse_dns_response : bytes → option (string * Z * Z))
    (extract_records : bytes → option (list ResourceRecord))
    (build_dns_response : Z → bytes → list Entry → string → Z → option bytes)
    (data : bytes) (addr : Addr) (w : World)
    (qn : string) (qt tid : Z) (response : bytes)
    (records : list ResourceRecord) (k : string) (T : Q) :
  parse_dns_response data = Some (qn, qt, tid) →
  valid_records (clock (ticks w)) (cache_key qt qn) (cache w) = [] →
  extract_records response = Some records →
  (clock (ticks w) <= T)%Q →
  valid_records T k
    (cache (world (handle_request clock parse_dns_response extract_records
                     build_dns_response data addr (Replies response) w)))
  = valid_records T k (cache w)
    ++ live_records T (entries_for clock (S (ticks w)) k records).
Proof.
  intros Hparse Hvalid Hextract Hle.
  rewrite handle_request_world, Hparse, Hvalid, Hextract. simpl.
  rewrite <- (valid_records_evict (clock (ticks w)) T (cache_key qt qn) k
                (cache w) Hle Hvalid).
  unfold valid_records at 1. rewrite lookup_store_all.
  destruct (entries_for clock (S (ticks w)) k records) as [|e es].
  - by rewrite app_nil_r.
  - simpl. apply live_records_app.
Qed.

(** ** A miss, then the same query again *)


(** ** No key is ever left with an empty list *)

Lemma nonempty_live_part T (c : Cache) : nonempty_buckets (live_part T c).
Proof. intros k rs Hk. by apply live_part_entries in Hk as [? _]. Qed.

Lemma nonempty_evict key (c : Cache) :
  nonempty_buckets c → nonempty_buckets (evict key c).
Proof.
  intros Hc k rs. rewrite evict_delete.
  destruct (decide (k = key)) as [->|Hne].
  - by rewrite lookup_delete_eq.
  - rewrite lookup_delete_ne by done. apply Hc.
Qed.

Lemma nonempty_store_all clock n records (c : Cache) :
  nonempty_buckets c → nonempty_buckets (store_all clock n records c).
Proof.
  intros Hc k rs. rewrite lookup_store_all.
  destruct (entries_for clock n k records) as [|e es]; [apply Hc |].
  intros [= <-]. by destruct (default [] (c !! k)).
Qed.

(** X6. The dictionary never binds a key to an empty list: it is so after
    [load_cache] and after a turn of the sweep whatever came before, and a
    request, the requests of a whole run of the loop, and a save keep it
    so. *)
Theorem buckets_are_never_empty
    (clock : nat → Q)
    (parse_dns_response : bytes → option (string * Z * Z))
    (extract_records : bytes → option (list ResourceRecord))
    (build_dns_response : Z → bytes → list Entry → string → Z → option bytes)
    (w : World) :
  nonempty_buckets (cache (world (load_cache clock w)))
  ∧ nonempty_buckets (cache (world (cleanup_round clock w)))
  ∧ (nonempty_buckets (cache w) →
     (∀ data addr net,
        nonempty_buckets
          (cache (world (handle_request clock parse_dns_response
                           extract_records build_dns_response
                           data addr net w))))
     ∧ (∀ packets,
          nonempty_buckets
            (cache (world (serve clock parse_dns_response extract_records
                             build_dns_response packets w))))
     ∧ nonempty_buckets (cache (world (save_cache w)))).
Proof.
  assert (∀ w data addr net,
            nonempty_buckets (cache w) →
            nonempty_buckets
              (cache (world (handle_request clock parse_dns_response
                               extract_records build_dns_response
                               data addr net w)))) as Hreq.
  { intros w0 data addr net Hw. rewrite handle_request_world.
    destruct (parse_dns_response data) as [[[qn qt] tid]|]; [|done].
    destruct (valid_records _ _ _); [|done].
    pose proof (nonempty_evict (cache_key qt qn) (cache w0) Hw) as Hev.
    destruct net as [| | |response]; try exact Hev.
    destruct (extract_records response); [|exact Hev].
    by apply nonempty_store_all. }
  split; [|split; [|intros Hw; split; [|split]]].
  - destruct (cache_file w) as [| |raw] eqn:Hfile.
    + rewrite load_cache_missing by done. simpl. intros k rs.
      by rewrite lookup_empty.
    + rewrite load_cache_unparseable by done. simpl. intros k rs.
      by rewrite lookup_empty.
    + erewrite load_cache_snapshot by done. apply nonempty_live_part.
  - rewrite cleanup_round_run. apply nonempty_live_part.
  - intros data addr net. by apply Hreq.
  - intros packets. revert w Hw.
    induction packets as [|[[data addr] net] rest IH]; intros w0 Hw; [done |].
    rewrite serve_cons. simpl. apply IH. by apply Hreq.
  - done.
Qed.

(** ** What a request leaves alone *)

Lemma entries_for_none clock k records : ∀ n,
  (∀ rec, rec ∈ records → cache_key (rr_type rec) (rr_name rec) ≠ k) →
  entries_for clock n k records = [].
Proof.
  induction records as [|r0 rest IH]; intros n Hnone; [reflexivity |].
  simpl. rewrite decide_False by (apply Hnone; left).
  simpl. apply IH. intros rec Hrec. apply Hnone. by right.
Qed.

(** X7. A request never reads or writes the snapshot file, and it changes
    the dictionary at no key other than the one asked for and those of the
    records it stores. *)
Theorem request_leaves_the_rest_alone
    (clock : nat → Q)
    (parse_dns_response : bytes → option (string * Z * Z))
    (extract_records : bytes → option (list ResourceRecord))
    (build_dns_response : Z → bytes → list Entry → string → Z → option bytes)
    (data : bytes) (addr : Addr) (net : Upstream) (w : World) :
  let r := handle_request clock parse_dns_response extract_records
             build_dns_response data addr net w in
  cache_file (world r) = cache_file w
  ∧ List.filter is_file_event (events r) = []
  ∧ (∀ k,
       (∀ qn qt tid, parse_dns_response data = Some (qn, qt, tid) →
                     cache_key qt qn ≠ k) →
       (∀ response records rec,
          net = Replies response → extract_records response = Some records →
          rec ∈ records → cache_key (rr_type rec) (rr_name rec) ≠ k) →
       cache (world r) !! k = cache w !! k).
Proof.
  intros r. subst r. split; [|split].
  - rewrite handle_request_world.
    destruct (parse_dns_response data) as [[[qn qt] tid]|]; [|done].
    destruct (valid_records _ _ _); [|done].
    destruct net as [| | |response]; [done .. |].
    by destruct (extract_records response).
  - destruct (parse_dns_response data) as [[[qn qt] tid]|] eqn:Hparse.
    + destruct (valid_records (clock (ticks w)) (cache_key qt qn) (cache w))
        as [|e es] eqn:Hvalid.
      * rewrite (handle_request_miss _ _ _ _ _ _ _ _ _ _ _ Hparse Hvalid).
        destruct net as [| | |response]; [done .. |].
        destruct (extract_records response) as [records|]; [|done].
        simpl. induction records as [|rec rest IH]; [done | exact IH].
      * destruct (build_dns_response tid data (e :: es) qn qt) eqn:Hbuild.
        -- by erewrite handle_request_hit.
        -- by erewrite handle_request_hit_unbuilt.
    + by rewrite handle_request_undecodable.
  - intros k Hquery Hstored. rewrite handle_request_world.
    destruct (parse_dns_response data) as [[[qn qt] tid]|]; [|done].
    destruct (valid_records _ _ _); [|done].
    assert (evict (cache_key qt qn) (cache w) !! k = cache w !! k) as Hev.
    { rewrite evict_delete. apply lookup_delete_ne. by eapply Hquery. }
    destruct net as [| | |response]; try exact Hev.
    destruct (extract_records response) as [records|] eqn:Hextract;
      [|exact Hev].
    simpl. rewrite lookup_store_all, entries_for_none; [exact Hev |].
    intros rec Hrec. by eapply Hstored.
Qed.

(** ** What a request sends *)

Lemma filter_appends (f : Event → bool) (records : list ResourceRecord)
    (rest : list Event) :
  f (Touch Append) = false →
  List.filter f ((records ≫= λ _, [Touch Append]) ++ rest) = List.filter f rest.
Proof.
  intros Hf. induction records as [|rec records IH]; [done |].
  simpl. by rewrite Hf.
Qed.

(** X8. A request sends at most one datagram to the upstream, the query
    bytes as they came, to 8.8.8.8 port 53, and only when the query is
    decoded and misses.  It sends at most one datagram to a client, always
    to the address the query came from: the answer built from the cache on a
    hit, the bytes received from the upstream on a miss that is answered,
    and nothing in every other case. *)
Theorem request_sends
    (clock : nat → Q)
    (parse_dns_response : bytes → option (string * Z * Z))
    (extract_records : bytes → option (list ResourceRecord))
    (build_dns_response : Z → bytes → list Entry → string → Z → option bytes)
    (data : bytes) (addr : Addr) (net : Upstream) (w : World) :
  let r := handle_request clock parse_dns_response extract_records
             build_dns_response data addr net w in
  List.filter is_upstream_send (events r) =
    match parse_dns_response data with
    | Some (qn, qt, tid) =>
        match valid_records (clock (ticks w)) (cache_key qt qn) (cache w) with
        | [] => [SendUpstream data (UPSTREAM_DNS, 53%Z)]
        | _ :: _ => []
        end
    | None => []
    end
  ∧ List.filter is_client_send (events r) =
      match parse_dns_response data with
      | Some (qn, qt, tid) =>
          match valid_records (clock (ticks w)) (cache_key qt qn) (cache w) with
          | [] =>
              match net with
              | Replies response => [SendClient response addr]
              | _ => []
              end
          | e :: es =>
              match build_dns_response tid data (e :: es) qn qt with
              | Some answer => [SendClient answer addr]
              | None => []
              end
          end
      | None => []
      end.
Proof.
  intros r. subst r.
  destruct (parse_dns_response data) as [[[qn qt] tid]|] eqn:Hparse.
  - destruct (valid_records (clock (ticks w)) (cache_key qt qn) (cache w))
      as [|e es] eqn:Hvalid.
    + rewrite (handle_request_miss _ _ _ _ _ _ _ _ _ _ _ Hparse Hvalid).
      destruct net as [| | |response]; [done .. |].
      destruct (extract_records response) as [records|]; [|done].
      simpl. by rewrite !filter_appends.
    + destruct (build_dns_response tid data (e :: es) qn qt) eqn:Hbuild.
      * by erewrite handle_request_hit.
      * by erewrite handle_request_hit_unbuilt.
  - by rewrite handle_request_undecodable.
Qed.

(** ** Keys do not collide *)

(** X9. Two pairs of a type and a name give the same key only when they are
    the same pair: records of different types or names are never stored in,
    nor answered from, the same list. *)
Theorem cache_key_inj (t1 t2 : Z) (n1 n2 : string) :
  cache_key t1 n1 = cache_key t2 n2 ↔ t1 = t2 ∧ n1 = n2.
Proof.
  split; [|by intros [-> ->]].
  unfold cache_key. intros Heq.
  apply split_at_colon in Heq as [Ht ->]; [|apply pretty_Z_colon_free ..].
  split; [|done]. by apply (inj pretty).
Qed.

(** ** The server from start to stop *)

Lemma load_cache_returns clock w : res (load_cache clock w) = Ok tt.
Proof.
  destruct (cache_file w) as [| |raw] eqn:Hfile.
  - by rewrite load_cache_missing.
  - by rewrite load_cache_unparseable.
  - by erewrite load_cache_snapshot.
Qed.

Lemma receive_loop_world clock parse_dns_response extract_records
    build_dns_response packets : ∀ w,
  (receive_loop clock parse_dns_response extract_records build_dns_response
     packets w).1
  = world (serve clock parse_dns_response extract_records build_dns_response
             packets w).
Proof.
  induction packets as [|[[data addr] net] rest IH]; intros w; [done |].
  rewrite serve_cons. simpl. rewrite <- IH. by destruct (receive_loop _ _ _ _ _ _).
Qed.

Lemma run_dns_server_final clock parse_dns_response extract_records
    build_dns_response stop packets w :
  let loaded := world (load_cache clock w) in
  let last :=
    match stop with
    | BindDenied | BindFails => loaded
    | _ => world (serve clock parse_dns_response extract_records
                    build_dns_response packets loaded)
    end in
  final (run_dns_server clock parse_dns_response extract_records
           build_dns_response stop packets w)
  = {| cache := cache last; cache_file := Snapshot (cache last);
       ticks := ticks last |}.
Proof.
  intros loaded last. unfold run_dns_server.
  rewrite load_cache_returns. fold loaded.
  pose proof (receive_loop_world clock parse_dns_response extract_records
                build_dns_response packets loaded) as Hloop.
  destruct (receive_loop _ _ _ _ packets loaded) as [w' received].
  simpl in Hloop. subst w'. by destruct stop.
Qed.

Lemma run_dns_server_events clock parse_dns_response extract_records
    build_dns_response stop packets w :
  let r := run_dns_server clock parse_dns_response extract_records
             build_dns_response stop packets w in
  let received := (receive_loop clock parse_dns_response extract_records
                     build_dns_response packets
                     (world (load_cache clock w))).2 in
  server_events r =
    ((Did <$> events (load_cache clock w))
     ++ [StartSweeper; OpenListener; BindListener "0.0.0.0" PORT]
     ++ match stop with
        | BindDenied => [Say (NeedsAdministrator PORT)]
        | BindFails => [Say ServerStopped]
        | ReceiveFails => Say (Started PORT) :: received ++ [Say ServerStopped]
        | Interrupted => Say (Started PORT) :: received
        end)
    ++ [Did Acquire; Did (Touch Dump);
        Did (WriteFile CACHE_FILE (cache (final r))); Did Release].
Proof.
  intros r received. subst r received. unfold run_dns_server.
  rewrite load_cache_returns.
  destruct (receive_loop _ _ _ _ packets _) as [w' later].
  destruct stop; simpl; rewrite <- ?app_assoc; simpl;
    rewrite <- ?app_assoc; reflexivity.
Qed.

Lemma serve_returns clock parse_dns_response extract_records
    build_dns_response packets : ∀ w,
  res (serve clock parse_dns_response extract_records build_dns_response
         packets w) = Ok tt.
Proof.
  induction packets as [|[[data addr] net] rest IH]; intros w; [done |].
  rewrite serve_cons. simpl. apply IH.
Qed.

Lemma run_dns_server_saves
    (clock : nat → Q)
    (parse_dns_response : bytes → option (string * Z * Z))
    (extract_records : bytes → option (list ResourceRecord))
    (build_dns_response : Z → bytes → list Entry → string → Z → option bytes)
    (stop : Stop) (packets : list (bytes * Addr * Upstream)) (w : World) :
  let r := run_dns_server clock parse_dns_response extract_records
             build_dns_response stop packets w in
  cache_file (final r) = Snapshot (cache (final r))
  ∧ (∃ before,
       server_events r =
         before ++ [Did Acquire; Did (Touch Dump);
                    Did (WriteFile CACHE_FILE (cache (final r)));
                    Did Release])
  ∧ (escapes r = true ↔ stop = Interrupted).
Proof.
  intros r. split; [|split].
  - subst r. by rewrite run_dns_server_final.
  - eexists. apply run_dns_server_events.
  - subst r. unfold run_dns_server. rewrite load_cache_returns.
    destruct (receive_loop _ _ _ _ packets _) as [w' received].
    by destruct stop.
Qed.

Lemma run_dns_server_unbound
    (clock : nat → Q)
    (parse_dns_response : bytes → option (string * Z * Z))
    (extract_records : bytes → option (list ResourceRecord))
    (build_dns_response : Z → bytes → list Entry → string → Z → option bytes)
    (stop : Stop) (packets : list (bytes * Addr * Upstream)) (w : World) :
  stop = BindDenied ∨ stop = BindFails →
  let r := run_dns_server clock parse_dns_response extract_records
             build_dns_response stop packets w in
  cache_file (final r) =
    Snapshot match cache_file w with
             | Snapshot raw => live_part (clock (ticks w)) raw
             | _ => ∅
             end
  ∧ (∀ size, ReceiveDatagram size ∉ server_events r)
  ∧ (∀ payload dst, Did (SendClient payload dst) ∉ server_events r)
  ∧ (∀ payload dst, Did (SendUpstream payload dst) ∉ server_events r).
Proof.
  intros Hstop r.
  assert (cache (world (load_cache clock w)) =
            match cache_file w with
            | Snapshot raw => live_part (clock (ticks w)) raw
            | _ => ∅
            end) as Hload.
  { destruct (cache_file w) as [| |raw] eqn:Hfile.
    - by rewrite load_cache_missing.
    - by rewrite load_cache_unparseable.
    - by erewrite load_cache_snapshot. }
  split.
  - subst r. rewrite run_dns_server_final. simpl.
    by destruct Hstop as [-> | ->]; rewrite Hload.
  - pose proof (run_dns_server_events clock parse_dns_response
                  extract_records build_dns_response stop packets w) as Hev.
    simpl in Hev. fold r in Hev. rewrite Hev. clear Hev.
    assert (∃ l, events (load_cache clock w) = l
                 ∧ ∀ e, e ∈ l → is_io e = true → ∃ path, e = OpenRead path)
      as (l & -> & Hl).
    { eexists. split; [done |].
      destruct (cache_file w) as [| |raw] eqn:Hfile;
        [rewrite load_cache_missing by done
        |rewrite load_cache_unparseable by done
        |erewrite load_cache_snapshot by done];
        intros e He Hio;
        repeat (apply elem_of_cons in He as [->|He];
                [eauto || discriminate Hio |]);
        by apply elem_of_nil in He. }
    assert (∀ x, (∀ e, x ≠ Did (OpenRead e)) → (∃ e, x = Did e ∧ is_io e = true) →
                 x ∉ (Did <$> l)) as Hnot.
    { intros x Hx (e & -> & Hio) (e' & [= <-] & He)%list_elem_of_fmap.
      destruct (Hl e He Hio) as [path ->]. by eapply Hx. }
    destruct Hstop as [-> | ->];
      (split; [|split]; intros;
       rewrite !elem_of_app; intros Hin; destruct_or!;
       first [ by apply list_elem_of_fmap in Hin as (? & ? & _)
             | by (revert Hin; apply Hnot; [done | eauto])
             | by (revert Hin; absent) ]).
Qed.



(** X13. A stop and a new start cannot be observed by the cache checks that
    follow: the new process loads without error, and at any time not before
    its load a check of any key finds the records it would have found in the
    dictionary the old process held when it stopped. *)
Theorem restart_is_invisible_to_later_checks
    (clock clock2 : nat → Q)
    (parse_dns_response : bytes → option (string * Z * Z))
    (extract_records : bytes → option (list ResourceRecord))
    (build_dns_response : Z → bytes → list Entry → string → Z → option bytes)
    (stop : Stop) (packets : list (bytes * Addr * Upstream)) (w : World)
    (key : string) (T : Q) :
  let r := run_dns_server clock parse_dns_response extract_records
             build_dns_response stop packets w in
  let again := load_cache clock2 (final r) in
  (clock2 (ticks (final r)) <= T)%Q →
  res again = Ok tt
  ∧ valid_records T key (cache (world again))
    = valid_records T key (cache (final r)).
Proof.
  intros r again Hle. split; [apply load_cache_returns |].
  subst again. revert Hle. subst r. rewrite run_dns_server_final.
  intros Hle. erewrite load_cache_snapshot by reflexivity. simpl in *.
  by apply valid_records_live_part.
Qed.

(** ** The order of the keys in the sweep *)

(** X14. The expiry loop gives the same result in whatever order it visits
    the keys: over any listing of the keys of the dictionary without
    repetition it ends without [KeyError] and leaves every key with its live
    entries, or removed when it has none. *)
Theorem purge_does_not_depend_on_order (now : Q) (keys : list string)
    (d : Cache) :
  NoDup keys →
  (∀ k, k ∈ keys ↔ is_Some (d !! k)) →
  purge_keys now keys d = (live_part now d, Ok tt)
  ∧ purge_keys now keys d = purge now d.
Proof.
  intros Hnodup Hkeys.
  assert (purge_keys now keys d = (live_part now d, Ok tt)) as Hrun.
  { destruct (purge_keys_spec now keys Hnodup d) as (d' & -> & Hd').
    - intros k Hk. by apply Hkeys.
    - f_equal. apply map_eq. intros k. rewrite Hd', lookup_live_part.
      case_decide as Hk; [done |].
      destruct (d !! k) eqn:E; [|done].
      exfalso. apply Hk, Hkeys. eauto. }
  split; [exact Hrun |]. by rewrite Hrun, purge_ok.
Qed.

(** ** The lock over whole runs *)

Lemma lock_after_app (a b : list Event) : ∀ held held',
  lock_after held a = Some held' →
  lock_after held (a ++ b) = lock_after held' b
  ∧ unlocked_touches held (a ++ b)
    = unlocked_touches held a ++ unlocked_touches held' b.
Proof.
  induction a as [|e a IH]; intros held held' Ha; simpl in *.
  - by injection Ha as ->.
  - destruct e; try (by apply IH);
      destruct held; try discriminate Ha; simpl;
      try (by apply IH).
    destruct (IH false held' Ha) as [-> ->]. done.
Qed.

Lemma handle_request_lock clock parse_dns_response extract_records
    build_dns_response data addr net w :
  let tr := events (handle_request clock parse_dns_response extract_records
                      build_dns_response data addr net w) in
  lock_after false tr = Some false ∧ unlocked_touches false tr = [].
Proof.
  intros tr. subst tr.
  destruct (parse_dns_response data) as [[[qn qt] tid]|] eqn:Hparse.
  - destruct (valid_records (clock (ticks w)) (cache_key qt qn) (cache w))
      as [|r rs] eqn:Hvalid.
    + rewrite (handle_request_miss _ _ _ _ _ _ _ _ _ _ _ Hparse Hvalid).
      destruct net as [| | |response]; [done .. |].
      destruct (extract_records response) as [records|]; [|done].
      simpl. by destruct (scan_appends records [Release]) as (-> & _ & ->).
    + destruct (build_dns_response tid data (r :: rs) qn qt) eqn:Hbuild.
      * by erewrite handle_request_hit.
      * by erewrite handle_request_hit_unbuilt.
  - by rewrite handle_request_undecodable.
Qed.

(** X15. Over a whole run of the receive loop, whatever the datagrams and
    the upstream do, the lock is taken and released in turn and is free at
    the end, and no handler touches the dictionary without holding it.  The
    same holds for any number of turns of the sweep, whose only touch
    without the lock is the entry count it reads for its log line, once a
    turn. *)
Theorem lock_discipline_of_runs
    (clock : nat → Q)
    (parse_dns_response : bytes → option (string * Z * Z))
    (extract_records : bytes → option (list ResourceRecord))
    (build_dns_response : Z → bytes → list Entry → string → Z → option bytes)
    (packets : list (bytes * Addr * Upstream)) (n : nat) (w : World) :
  let served := events (serve clock parse_dns_response extract_records
                          build_dns_response packets w) in
  let swept := events (cleanup_cache clock n w) in
  lock_after false served = Some false
  ∧ unlocked_touches false served = []
  ∧ lock_after false swept = Some false
  ∧ unlocked_touches false swept = replicate n Len.
Proof.
  intros served swept. subst served swept.
  assert (∀ w,
            let served := events (serve clock parse_dns_response
                                    extract_records build_dns_response
                                    packets w) in
            lock_after false served = Some false
            ∧ unlocked_touches false served = []) as Hserve.
  { induction packets as [|[[data addr] net] rest IH]; intros w0; [done |].
    cbv zeta. rewrite serve_cons. simpl.
    destruct (handle_request_lock clock parse_dns_response extract_records
                build_dns_response data addr net w0) as [Hlock Htouch].
    destruct (lock_after_app _ (events (serve clock parse_dns_response
                extract_records build_dns_response rest
                (world (handle_request clock parse_dns_response
                          extract_records build_dns_response
                          data addr net w0)))) _ _ Hlock) as [-> ->].
    rewrite Htouch. apply IH. }
  assert (∀ w,
            let swept := events (cleanup_cache clock n w) in
            lock_after false swept = Some false
            ∧ unlocked_touches false swept = replicate n Len) as Hsweep.
  { induction n as [|n IH]; intros w0; [done |].
    cbv zeta. rewrite cleanup_cache_S. cbv zeta. cbn [events].
    assert (lock_after false (events (cleanup_round clock w0)) = Some false
            ∧ unlocked_touches false (events (cleanup_round clock w0)) = [Len])
      as [Hlock Htouch] by (by rewrite cleanup_round_run).
    destruct (lock_after_app _ (events (cleanup_cache clock n
                (world (cleanup_round clock w0)))) _ _ Hlock) as [-> ->].
    rewrite Htouch. destruct (IH (world (cleanup_round clock w0))) as [-> ->].
    done. }
  destruct (Hserve w) as [-> ->]. destruct (Hsweep w) as [-> ->]. done.
Qed.

(** ** The further properties at the sample inputs *)

Lemma sample_clock_nondecreasing : nondecreasing Sample.clock.
Proof. intros n. unfold Sample.clock. rewrite <- Zle_Qle. lia. Qed.

Lemma sweep_is_invisible_to_later_checks_witness :
  (Sample.clock (ticks Sample.mixed_world) <= 1200)%Q
  ∧ valid_records 1200 Sample.key
      (cache (world (cleanup_round Sample.clock Sample.mixed_world)))
    = valid_records 1200 Sample.key (cache Sample.mixed_world).
Proof.
  assert (Sample.clock (ticks Sample.mixed_world) <= 1200)%Q as Hle
    by (vm_compute; discriminate).
  split; [exact Hle |].
  apply (sweep_is_invisible_to_later_checks Sample.clock Sample.mixed_world
           Sample.key 1200 Hle).
Defined.

Lemma sweeps_compose_witness :
  nondecreasing Sample.clock
  ∧ cache (world (cleanup_cache Sample.clock 3 Sample.mixed_world))
    = live_part (Sample.clock 2) (cache Sample.mixed_world).
Proof.
  split; [exact sample_clock_nondecreasing |].
  destruct (sweeps_compose Sample.clock 2 Sample.mixed_world
              sample_clock_nondecreasing) as (_ & H & _).
  exact H.
Defined.

Lemma request_without_store_is_invisible_witness :
  (Sample.clock (ticks Sample.stale_world) <= 2000)%Q
  ∧ valid_records 2000 Sample.key
      (cache (world (handle_request Sample.clock decodeQuery Sample.extract
                       Sample.build Sample.query Sample.client TimesOut
                       Sample.stale_world)))
    = valid_records 2000 Sample.key (cache Sample.stale_world).
Proof.
  assert (Sample.clock (ticks Sample.stale_world) <= 2000)%Q as Hle
    by (vm_compute; discriminate).
  split; [exact Hle |].
  apply (request_without_store_is_invisible Sample.clock decodeQuery
           Sample.extract Sample.build Sample.query Sample.client TimesOut
           Sample.stale_world Sample.key 2000 Hle).
  intros response records Hnet. discriminate Hnet.
Defined.

Lemma later_checks_after_store_witness :
  decodeQuery Sample.query = Some ("example.com", 1%Z, 4660%Z)
  ∧ valid_records (Sample.clock 0) (cache_key 1 "example.com")
      (cache Sample.empty_world) = []
  ∧ (Sample.clock (ticks Sample.empty_world) <= 1100)%Q
  ∧ valid_records 1100 Sample.key
      (cache (world (handle_request Sample.clock decodeQuery Sample.extract
                       Sample.build Sample.query Sample.client
                       (Replies Sample.reply) Sample.empty_world)))
    = valid_records 1100 Sample.key (cache Sample.empty_world)
      ++ live_records 1100
           (entries_for Sample.clock 1 Sample.key [Sample.a_record]).
Proof.
  assert (decodeQuery Sample.query = Some ("example.com", 1%Z, 4660%Z))
    as Hparse by (vm_compute; reflexivity).
  assert (valid_records (Sample.clock 0) (cache_key 1 "example.com")
            (cache Sample.empty_world) = [])
    as Hvalid by (vm_compute; reflexivity).
  assert (Sample.clock (ticks Sample.empty_world) <= 1100)%Q as Hle
    by (vm_compute; discriminate).
  split; [exact Hparse |]. split; [exact Hvalid |]. split; [exact Hle |].
  apply (later_checks_after_store Sample.clock decodeQuery Sample.extract
           Sample.build Sample.query Sample.client Sample.empty_world
           "example.com" 1 4660 Sample.reply [Sample.a_record] Sample.key 1100
           Hparse Hvalid eq_refl Hle).
Defined.



Lemma restart_is_invisible_to_later_checks_witness :
  let stopped :=
    final (run_dns_server Sample.clock decodeQuery Sample.extract
             Sample.build Interrupted Sample.two_packets Sample.empty_world) in
  (Sample.clock (ticks stopped) <= 1200)%Q
  ∧ valid_records 1200 Sample.key
      (cache (world (load_cache Sample.clock stopped)))
    = valid_records 1200 Sample.key (cache stopped).
Proof.
  intros stopped.
  assert (Sample.clock (ticks stopped) <= 1200)%Q as Hle
    by (vm_compute; discriminate).
  split; [exact Hle |].
  apply (restart_is_invisible_to_later_checks Sample.clock Sample.clock
           decodeQuery Sample.extract Sample.build Interrupted
           Sample.two_packets Sample.empty_world Sample.key 1200 Hle).
Defined.

Lemma two_keys_listing (keys : list string) :
  keys = [Sample.key; Sample.key6] ∨ keys = [Sample.key6; Sample.key] →
  NoDup keys ∧ ∀ k, k ∈ keys ↔ is_Some (Sample.two_keys !! k).
Proof.
  assert (Sample.key ≠ Sample.key6) as Hne
    by (intros H; vm_compute in H; discriminate H).
  assert (∀ k, is_Some (Sample.two_keys !! k)
               ↔ k = Sample.key ∨ k = Sample.key6) as Hdom.
  { intros k. unfold Sample.two_keys.
    rewrite lookup_insert_is_Some, lookup_singleton_is_Some.
    split.
    - intros [Hk|[_ Hk]]; eauto.
    - intros [->| ->]; eauto. }
  intros [-> | ->]; split.
  - apply NoDup_cons. split; [by intros ?%list_elem_of_singleton |].
    apply NoDup_singleton.
  - intros k. rewrite Hdom, !elem_of_cons, elem_of_nil. tauto.
  - apply NoDup_cons. split; [by intros ?%list_elem_of_singleton |].
    apply NoDup_singleton.
  - intros k. rewrite Hdom, !elem_of_cons, elem_of_nil. tauto.
Qed.

Lemma purge_does_not_depend_on_order_witness :
  purge_keys 1000 [Sample.key; Sample.key6] Sample.two_keys
  = (live_part 1000 Sample.two_keys, Ok tt)
  ∧ purge_keys 1000 [Sample.key6; Sample.key] Sample.two_keys
    = (live_part 1000 Sample.two_keys, Ok tt).
Proof.
  split.
  - destruct (two_keys_listing [Sample.key; Sample.key6] (or_introl eq_refl))
      as [Hnodup Hkeys].
    apply (purge_does_not_depend_on_order 1000 _ Sample.two_keys Hnodup Hkeys).
  - destruct (two_keys_listing [Sample.key6; Sample.key] (or_intror eq_refl))
      as [Hnodup Hkeys].
    apply (purge_does_not_depend_on_order 1000 _ Sample.two_keys Hnodup Hkeys).
Defined.
